(** * WiperMotorServo: the IBT-2 servo controller sketch

    A shallow embedding of [IBT_2_Servocontroller.ino] and the properties
    its specification states about it.

    Numeric model.
    - [double] values are exact rationals ([Q]) in the embedding of the
      sketch.  Statements about them use [==] ([Qeq]), or [=] where both
      sides are the same expression or a literal the sketch assigns;
      printed values are compared in lowest terms ([Qred]).  The
      properties that depend on rounding are stated on [Float.round],
      where every operation is rounded as IEEE 754 does.
    - [unsigned long] values are integers reduced modulo [2^32] where the
      sketch computes with them ([wrap32]); the signed [long]
      [previousMillis] is the two's complement reading ([to_long]).
    - the conversions the C++ compiler inserts ([double] to [long]/[int],
      integer to [double]) are written out.

    The interrupt handler [timeit] and the main [loop] are two transitions
    of one state machine; a run is a list of events.  A pass of [loop] is
    atomic with respect to [timeit]. *)

From Stdlib Require Import ZArith QArith Qabs Qpower Qround Qminmax Bool List
  Lia Lqa.
From Stdlib Require Floats.SpecFloat.
Import ListNotations.

Local Open Scope Z_scope.

(** ** Machine integers *)

Definition wrap32 (z : Z) : Z := z mod 2 ^ 32.

(** [unsigned long] to [long] on the AVR: two's complement. *)
Definition to_long (z : Z) : Z :=
  let u := wrap32 z in if u <? 2 ^ 31 then u else u - 2 ^ 32.

(** Conversion of a [double] to an integer type: the fraction is dropped
    (truncation toward zero). *)
Definition double_to_long (q : Q) : Z := Z.quot (Qnum q) (Z.pos (Qden q)).

(** [int] is narrower than [long]; the conversion drops the fraction in the
    same way. *)
Definition double_to_int (q : Q) : Z := double_to_long q.

Definition long_to_double (z : Z) : Q := inject_Z z.

(** ** Platform primitives used by the sketch *)

Module Arduino.

(** [#define abs(x) ((x)>0?(x):-(x))] *)
Definition abs (x : Q) : Q := if Qlt_le_dec 0 x then x else (- x)%Q.

(** Modelled from the spec: the range-mapping primitive [map] of the
    platform is not under src/.  Section 4.4: linear interpolation from
    [fromMin, fromMax] to [toMin, toMax], no clamping, "matching the
    permissive mapping semantics of the original platform's range-mapping
    primitive"; that primitive takes and returns [long], its quotient
    truncating toward zero. *)
Definition map (x in_min in_max out_min out_max : Z) : Z :=
  Z.quot ((x - in_min) * (out_max - out_min)) (in_max - in_min) + out_min.

End Arduino.

(** ** Globals of the sketch that are never assigned after start *)

Definition motorPin1 : Z := 9.
Definition motorPin2 : Z := 10.
Definition deadband : Q := 5.

Definition Pk1 : Q := 5.
Definition Ik1 : Q := 0.05.
Definition Dk1 : Q := 0.5.

Definition interval : Z := 50.

Definition potMin : Z := 0.
Definition potMax : Z := 400.
Definition pwmMin : Z := 1000.
Definition pwmMax : Z := 2000.
Definition outputMin : Z := -200.
Definition outputMax : Z := 200.

Definition alphaLowPass : Q := 0.5.
Definition alphaHighPass : Q := 0.5.

(** ** The two drive-output channels *)

Record Channels : Set := mkChannels {
  duty1 : Z;   (* last value written to motorPin1 *)
  duty2 : Z    (* last value written to motorPin2 *)
}.

Definition analogWrite (pin val : Z) (c : Channels) : Channels :=
  if pin =? motorPin1 then mkChannels val (duty2 c)
  else if pin =? motorPin2 then mkChannels (duty1 c) val
  else c.

(** ** The diagnostic line printed each tick *)

Record LogLine : Set := mkLogLine {
  log_pot : Z;
  log_filteredPWM : Q;
  log_highPassPWM : Q;
  log_pwm : Z;
  log_Output1 : Q
}.

(** ** Filters (lines 77-84) *)

Definition lowPassFilter (newPWM filteredPWM alpha : Q) : Q :=
  (alpha * newPWM + (1 - alpha) * filteredPWM)%Q.

(** [highPassFilter] reads the global [highPassPWM]; it is the first
    argument here.  Its parameter [previousPWM] shadows the global. *)
Definition highPassFilter (g_highPassPWM : Q) (newPWM previousPWM alpha : Q) : Q :=
  (alpha * (g_highPassPWM + newPWM - previousPWM))%Q.

(** ** Drive states of the deadband logic (spec section 4.5) *)

Inductive DriveState : Set := STOPPED | FORWARD | REVERSE.

(** The branch of the if-chain of lines 126-139 taken for a value of
    [Output1]; [None] when no branch is taken. *)
Definition drive_branch (Output1 : Q) : option DriveState :=
  if Qeq_bool Output1 0 then Some STOPPED
  else if Qlt_le_dec 0 Output1 then Some FORWARD
  else if Qlt_le_dec Output1 0 then Some REVERSE
  else None.

(** ** The PID controller *)

Module PID.

(** Modelled from the spec: the PID library ([PID_v1.h]) is not under
    src/.  Section 4.2: a controller "constructed with three gains
    (proportional, integral, derivative), a fixed sample period, and
    output bounds"; it "integrates error over time and differentiates the
    error trend"; its state (section 3) holds the integral accumulator and
    the time of the last compute. *)
Record t : Set := mk {
  kp : Q;
  ki : Q;
  kd : Q;
  SampleTime : Z;            (* milliseconds *)
  outMin : Q;
  outMax : Q;
  integralAccumulator : Q;
  lastError : Q;
  lastComputeTime : Z
}.

Definition clamp (lo hi x : Q) : Q :=
  if Qlt_le_dec hi x then hi
  else if Qlt_le_dec x lo then lo
  else x.

(** The sample period in seconds. *)
Definition dt (c : t) : Q := inject_Z (SampleTime c) / 1000.

(** Modelled from the spec: [compute()] of section 4.2.  "Only guaranteed
    to produce a new result after at least one sample-period has elapsed
    since the previous successful compute; calling more frequently is a
    no-op that returns the last output unchanged"; "the integral term must
    be clamped implicitly by the output bound"; "output is always within
    [outputMin, outputMax] inclusive".  [output] is the value the output
    variable holds when the call is made. *)
Definition Compute (c : t) (now : Z) (setpoint input output : Q) : t * Q :=
  if SampleTime c <=? wrap32 (now - lastComputeTime c) then
    let error := (setpoint - input)%Q in
    let integral :=
      clamp (outMin c) (outMax c)
            (integralAccumulator c + ki c * error * dt c)%Q in
    let derivative := ((error - lastError c) / dt c)%Q in
    let out :=
      clamp (outMin c) (outMax c)
            (kp c * error + integral + kd c * derivative)%Q in
    (mk (kp c) (ki c) (kd c) (SampleTime c) (outMin c) (outMax c)
        integral error now,
     out)
  else (c, output).

(** A run of the controller alone: one call of [Compute] per entry
    [(now, setpoint, input)], the output variable carried from call to
    call.  The outputs are listed in order. *)
Fixpoint run (c : t) (output : Q) (inputs : list (Z * Q * Q)) : list Q :=
  match inputs with
  | [] => []
  | (now, setpoint, input) :: rest =>
      let (c', out) := Compute c now setpoint input output in
      out :: run c' out rest
  end.

End PID.

(** ** The control loop, for any PID controller

    [PID1.Compute()] reads [Setpoint1], [Input1] and the clock and writes
    [Output1]; nothing else of the sketch is visible to it.  The sketch is
    embedded for an arbitrary controller with that interface. *)

Section ControlLoop.

Variable pid : Type.
Variable Compute : pid -> Z -> Q -> Q -> Q -> pid * Q.

Record State : Type := mkState {
  (* shared with the interrupt handler *)
  pwm : Z;                 (* volatile unsigned long *)
  done : bool;             (* volatile boolean *)
  start : Z;               (* unsigned long *)
  (* timing *)
  currentMillis : Z;       (* unsigned long *)
  previousMillis : Z;      (* long *)
  (* sensor *)
  pot : Z;                 (* int *)
  (* filters *)
  previousPWM : Q;
  filteredPWM : Q;
  highPassPWM : Q;
  (* PID variables *)
  Setpoint1 : Q;
  Input1 : Q;
  Output1 : Q;
  Output1a : Q;
  PID1 : pid;
  (* outside world *)
  channels : Channels;
  serial : list LogLine
}.

(** What the hardware supplies to one pass of [loop]: [millis()] at line
    87, [analogRead(potPin)] at line 92 and [millis()] as read inside
    [PID1.Compute()]. *)
Record TickIn : Set := mkTickIn {
  t_loop : Z;
  analog : Z;
  t_pid : Z
}.

(** [timeit] (lines 67-74): [level] is [digitalRead(pwmInputPin) == HIGH],
    [micros] the value of [micros()]. *)
Definition timeit (s : State) (level : bool) (micros : Z) : State :=
  if level then
    mkState (pwm s) (done s) micros
            (currentMillis s) (previousMillis s) (pot s)
            (previousPWM s) (filteredPWM s) (highPassPWM s)
            (Setpoint1 s) (Input1 s) (Output1 s) (Output1a s) (PID1 s)
            (channels s) (serial s)
  else
    mkState (wrap32 (micros - start s)) true (start s)
            (currentMillis s) (previousMillis s) (pot s)
            (previousPWM s) (filteredPWM s) (highPassPWM s)
            (Setpoint1 s) (Input1 s) (Output1 s) (Output1a s) (PID1 s)
            (channels s) (serial s).

(** Line 88: has the sample period elapsed?  The subtraction and the
    comparison are unsigned. *)
Definition due (s : State) (i : TickIn) : bool :=
  interval <=? wrap32 (t_loop i - previousMillis s).

(** Lines 121-123. *)
Definition apply_deadband (Output1 : Q) : Q :=
  if Qlt_le_dec (Arduino.abs Output1) deadband then 0%Q else Output1.

(** Lines 126-139: the writes to the two channels and to [Output1a]. *)
Definition drive (Output1 Output1a : Q) (c : Channels) : Q * Channels :=
  match drive_branch Output1 with
  | Some STOPPED =>
      (Output1a, analogWrite motorPin2 0 (analogWrite motorPin1 0 c))
  | Some FORWARD =>
      (Output1a,
       analogWrite motorPin2 0
         (analogWrite motorPin1 (double_to_int Output1) c))
  | Some REVERSE =>
      let a := Arduino.abs Output1 in
      (a,
       analogWrite motorPin2 (double_to_int a)
         (analogWrite motorPin1 0 c))
  | None => (Output1a, c)
  end.

(** [loop] (lines 86-146). *)
Definition loop (s : State) (i : TickIn) : State :=
  if due s i then
    let raw := long_to_double (pwm s) in
    let pot' := analog i in
    let filteredPWM' := lowPassFilter raw (filteredPWM s) alphaLowPass in
    let highPassPWM' :=
      highPassFilter (highPassPWM s) raw (previousPWM s) alphaHighPass in
    let previousPWM' := raw in
    let line :=
      mkLogLine pot' filteredPWM' highPassPWM' (pwm s) (Output1 s) in
    let Setpoint1' :=
      long_to_double
        (Arduino.map (double_to_long filteredPWM')
                     pwmMin pwmMax outputMin outputMax) in
    let Input1' :=
      long_to_double (Arduino.map pot' potMin potMax outputMin outputMax) in
    let computed := Compute (PID1 s) (t_pid i) Setpoint1' Input1' (Output1 s) in
    let Output1' := apply_deadband (snd computed) in
    let driven := drive Output1' (Output1a s) (channels s) in
    let done' := if negb (done s) then done s else false in
    mkState (pwm s) done' (start s)
            (t_loop i) (to_long (t_loop i)) pot'
            previousPWM' filteredPWM' highPassPWM'
            Setpoint1' Input1' Output1' (fst driven) (fst computed)
            (snd driven) (serial s ++ [line])
  else
    mkState (pwm s) (done s) (start s)
            (t_loop i) (previousMillis s) (pot s)
            (previousPWM s) (filteredPWM s) (highPassPWM s)
            (Setpoint1 s) (Input1 s) (Output1 s) (Output1a s) (PID1 s)
            (channels s) (serial s).

(** The globals as the sketch initialises them, around a configured
    controller. *)
Definition initial (p : pid) : State :=
  mkState 0 false 0 0 0 0
          1500 1500 0
          0 0 0 0 p
          (mkChannels 0 0) [].

(** ** Runs *)

Inductive Event : Set :=
| Edge (level : bool) (micros : Z)   (* the interrupt fires *)
| Tick (i : TickIn).                 (* one pass of [loop] *)

Definition step (s : State) (e : Event) : State :=
  match e with
  | Edge level micros => timeit s level micros
  | Tick i => loop s i
  end.

Definition run (s : State) (es : list Event) : State :=
  fold_left step es s.

(** No pulse is captured by an event: it is a tick or a rising edge. *)
Definition no_capture (e : Event) : bool :=
  match e with
  | Edge level _ => level
  | Tick _ => true
  end.

(** Number of passes of [loop] in a run that find the period elapsed. *)
Fixpoint executed (s : State) (es : list Event) : nat :=
  match es with
  | [] => O
  | e :: rest =>
      let n := executed (step s e) rest in
      match e with
      | Tick i => if due s i then S n else n
      | Edge _ _ => n
      end
  end.

End ControlLoop.

Arguments mkState {pid}.
Arguments pwm {pid}.
Arguments done {pid}.
Arguments start {pid}.
Arguments currentMillis {pid}.
Arguments previousMillis {pid}.
Arguments pot {pid}.
Arguments previousPWM {pid}.
Arguments filteredPWM {pid}.
Arguments highPassPWM {pid}.
Arguments Setpoint1 {pid}.
Arguments Input1 {pid}.
Arguments Output1 {pid}.
Arguments Output1a {pid}.
Arguments PID1 {pid}.
Arguments channels {pid}.
Arguments serial {pid}.
Arguments timeit {pid}.
Arguments due {pid}.
Arguments loop {pid}.
Arguments initial {pid}.
Arguments step {pid}.
Arguments run {pid}.
Arguments executed {pid}.

(** ** The sketch with the controller of section 4.2 *)

(** [PID PID1(&Input1, &Output1, &Setpoint1, Pk1, Ik1, Dk1, DIRECT)]
    (line 20) after [setup] gave it its bounds and its sample period
    (lines 63-64): "three gains, a fixed sample period, and output bounds". *)
Definition PID1_setup : PID.t :=
  PID.mk Pk1 Ik1 Dk1 interval (inject_Z outputMin) (inject_Z outputMax) 0 0 0.

Definition setup : State PID.t := initial PID1_setup.

Definition sketch_loop : State PID.t -> TickIn -> State PID.t :=
  loop PID.Compute.

Definition sketch_run : State PID.t -> list Event -> State PID.t :=
  run PID.Compute.

(** ** Vocabulary of the statements *)

(** The setpoint and the measurement a tick that runs hands to the
    controller (lines 114-115), and what the controller returns (line
    118). *)
Definition tick_Setpoint1 {pid : Type} (s : State pid) : Q :=
  long_to_double
    (Arduino.map
       (double_to_long
          (lowPassFilter (long_to_double (pwm s)) (filteredPWM s) alphaLowPass))
       pwmMin pwmMax outputMin outputMax).

Definition tick_Input1 (i : TickIn) : Q :=
  long_to_double (Arduino.map (analog i) potMin potMax outputMin outputMax).

Definition tick_compute {pid : Type}
           (Compute : pid -> Z -> Q -> Q -> Q -> pid * Q)
           (s : State pid) (i : TickIn) : pid * Q :=
  Compute (PID1 s) (t_pid i) (tick_Setpoint1 s) (tick_Input1 i) (Output1 s).

(** The state with the sample-ready flag set to [b]. *)
Definition set_done {pid : Type} (b : bool) (s : State pid) : State pid :=
  mkState (pwm s) b (start s)
          (currentMillis s) (previousMillis s) (pot s)
          (previousPWM s) (filteredPWM s) (highPassPWM s)
          (Setpoint1 s) (Input1 s) (Output1 s) (Output1a s) (PID1 s)
          (channels s) (serial s).

(** *** The filters as the specification words them *)

Module FilterSpec.

(** The filters as section 4.3 of the specification words them, to be
    compared with what [loop] does.  [FilterState] is the record of
    section 3. *)
Record FilterState : Set := mk {
  lowPassValue : Q;
  highPassValue : Q;
  previousInput : Q
}.

(** "Low-pass first (using old filtered_prev), high-pass second (using old
    highPass_prev and old previousRaw), then previousRaw is updated to the
    new raw sample." *)
Definition step (alpha_lp alpha_hp : Q) (f : FilterState) (raw : Q)
  : FilterState :=
  let filtered' := (alpha_lp * raw + (1 - alpha_lp) * lowPassValue f)%Q in
  let highPass' :=
    (alpha_hp * (highPassValue f + raw - previousInput f))%Q in
  mk filtered' highPass' raw.

(** The other order: [previousRaw] updated before the high-pass runs. *)
Definition step_update_first (alpha_lp alpha_hp : Q) (f : FilterState)
           (raw : Q) : FilterState :=
  let filtered' := (alpha_lp * raw + (1 - alpha_lp) * lowPassValue f)%Q in
  let previous' := raw in
  let highPass' := (alpha_hp * (highPassValue f + raw - previous'))%Q in
  mk filtered' highPass' previous'.

(** The pairs (low-pass, high-pass) produced for a sequence of samples,
    in lowest terms. *)
Fixpoint outputs (stp : FilterState -> Q -> FilterState)
         (f : FilterState) (samples : list Q) : list (Q * Q) :=
  match samples with
  | [] => []
  | raw :: rest =>
      let f' := stp f raw in
      (Qred (lowPassValue f'), Qred (highPassValue f')) :: outputs stp f' rest
  end.

End FilterSpec.

(** The three filter variables of the sketch as such a record. *)
Definition filter_state {pid : Type} (s : State pid)
  : FilterSpec.FilterState :=
  FilterSpec.mk (filteredPWM s) (highPassPWM s) (previousPWM s).

(** A log line without its high-pass field. *)
Definition log_without_highPass (l : LogLine) : Z * Q * Z * Q :=
  (log_pot l, log_filteredPWM l, log_pwm l, log_Output1 l).

(** Everything in the state but [highPassPWM] and the high-pass field of
    the printed lines. *)
Definition control_view {pid : Type} (s : State pid) :=
  (pwm s, done s, start s, currentMillis s, previousMillis s, pot s,
   previousPWM s, filteredPWM s,
   (Setpoint1 s, Input1 s, Output1 s, Output1a s, PID1 s, channels s),
   List.map log_without_highPass (serial s)).

(** The pairs (low-pass, high-pass) a run printed, in lowest terms. *)
Definition logged_filters (l : list LogLine) : list (Q * Q) :=
  List.map (fun x => (Qred (log_filteredPWM x), Qred (log_highPassPWM x))) l.

(** The bounds given in [setup] stay the controller's bounds, and
    [Output1] stays within them. *)
Definition Output1_bounded (s : State PID.t) : Prop :=
  PID.outMin (PID1 s) = inject_Z outputMin /\
  PID.outMax (PID1 s) = inject_Z outputMax /\
  (inject_Z outputMin <= Output1 s <= inject_Z outputMax)%Q.

(** ** Further vocabulary *)

(** Line 55 of [setup]: [TCCR1B = TCCR1B & B11111000 | B00000001;] on the
    8-bit control register of timer 1 ([&] binds tighter than [|]). *)
Definition setup_TCCR1B (TCCR1B : Z) : Z :=
  Z.lor (Z.land TCCR1B 248) 1.

Definition is_tick (e : Event) : bool :=
  match e with
  | Tick _ => true
  | Edge _ _ => false
  end.

(** A falling edge: the event that publishes a pulse width. *)
Definition is_capture (e : Event) : bool :=
  match e with
  | Edge level _ => negb level
  | Tick _ => false
  end.

(** The two channels exchanged. *)
Definition swap_channels (c : Channels) : Channels :=
  mkChannels (duty2 c) (duty1 c).

(** What only a tick that runs writes: everything but the capture
    variables and [currentMillis]. *)
Definition held_view {pid : Type} (s : State pid) :=
  (previousMillis s, pot s, previousPWM s, filteredPWM s, highPassPWM s,
   (Setpoint1 s, Input1 s, Output1 s, Output1a s, PID1 s),
   channels s, serial s).

(** The state of a sketch that never captured a pulse: [pwm] is still 0
    and the filtered width between 0 and its initial 1500. *)
Definition no_signal {pid : Type} (s : State pid) : Prop :=
  pwm s = 0 /\ (0 <= filteredPWM s <= 1500)%Q.

(** The same after a tick ran. *)
Definition no_signal_ticked {pid : Type} (s : State pid) : Prop :=
  no_signal s /\ (filteredPWM s <= 750)%Q /\ (-600 <= Setpoint1 s <= -300)%Q.

(** ** Rounded arithmetic

    The filters compute in [double], which on the AVR is the 32-bit IEEE
    754 format.  Where a property depends on the rounding, every operation
    on [double] is its exact rational result rounded to nearest, ties to
    even, in a format of [prec] significand bits whose smallest positive
    value is [2^emin]: 24 and -149 for the 32-bit format, 53 and -1074 for
    the 64-bit one.  Infinities and NaN are not modelled; the statements
    keep the values far below the largest finite one. *)

Module Float.

Section Format.

Variables (prec emin : Z).

(** [floor (log2 x)] for a positive [x]. *)
Definition ilog2 (x : Q) : Z :=
  let k := Z.log2 (Qnum x) - Z.log2 (Z.pos (Qden x)) in
  if Qle_bool (2 ^ k) x then k else k - 1.

(** The nearest integer, the even one of two equally near. *)
Definition rne (t : Q) : Z :=
  let n := Qfloor t in
  match (t - inject_Z n ?= 1 # 2)%Q with
  | Lt => n
  | Gt => n + 1
  | Eq => if Z.even n then n else n + 1
  end.

(** The exponent of the unit in the last place of [x]. *)
Definition quantum_exp (x : Q) : Z :=
  Z.max (ilog2 (Qabs x) - (prec - 1)) emin.

Definition round (x : Q) : Q :=
  if Qeq_bool x 0 then 0%Q
  else (inject_Z (rne (x / 2 ^ quantum_exp x)) * 2 ^ quantum_exp x)%Q.

Definition add (a b : Q) : Q := round (a + b).
Definition sub (a b : Q) : Q := round (a - b).
Definition mul (a b : Q) : Q := round (a * b).

(** Conversion of an [unsigned long] to [double]. *)
Definition of_ulong (z : Z) : Q := round (inject_Z z).

Definition representable (x : Q) : Prop := (round x == x)%Q.

(** The smallest positive number with a full significand. *)
Definition min_normal : Q := (2 ^ (emin + prec - 1))%Q.

End Format.

End Float.

(** [lowPassFilter] (lines 77-79) with each operation rounded:
    [alpha * newPWM + (1 - alpha) * filteredPWM]. *)
Definition lowPassFilter_rounded (prec emin : Z)
           (newPWM filteredPWM alpha : Q) : Q :=
  Float.add prec emin
    (Float.mul prec emin alpha newPWM)
    (Float.mul prec emin (Float.sub prec emin 1 alpha) filteredPWM).

(** The filtered value after [n] ticks that ran while [pwm] kept its value
    (line 95, [filteredPWM = lowPassFilter(pwm, filteredPWM,
    alphaLowPass)], with the conversion of [pwm] to [double]). *)
Fixpoint stale_ticks (prec emin : Z) (n : nat) (pwm : Z) (filteredPWM : Q)
  : Q :=
  match n with
  | O => filteredPWM
  | S k =>
      lowPassFilter_rounded prec emin (Float.of_ulong prec emin pwm)
                            (stale_ticks prec emin k pwm filteredPWM)
                            alphaLowPass
  end.

(** A representable value between 1 and [2^prec]. *)
Definition in_float_range (prec emin : Z) (x : Q) : Prop :=
  Float.representable prec emin x /\ (1 <= x <= 2 ^ prec)%Q.

(** *** The same steps on the IEEE 754 operations of the Standard Library

    [SpecFloat] gives the operations on sign, significand and exponent;
    [emax] is 128 for the 32-bit format and 1024 for the 64-bit one. *)

Definition SF2Q (x : SpecFloat.spec_float) : Q :=
  match x with
  | SpecFloat.S754_finite s m e =>
      ((if s then -1 else 1) * inject_Z (Z.pos m) * 2 ^ e)%Q
  | _ => 0%Q
  end.

Definition sf_of_Z (prec emax z : Z) : SpecFloat.spec_float :=
  SpecFloat.binary_normalize prec emax z 0 false.

(** The literal [0.5]. *)
Definition sf_half (prec emax : Z) : SpecFloat.spec_float :=
  SpecFloat.binary_normalize prec emax 1 (-1) false.

Definition lowPassFilter_sf (prec emax : Z)
           (newPWM filteredPWM alpha : SpecFloat.spec_float)
  : SpecFloat.spec_float :=
  SpecFloat.SFadd prec emax
    (SpecFloat.SFmul prec emax alpha newPWM)
    (SpecFloat.SFmul prec emax
       (SpecFloat.SFsub prec emax (sf_of_Z prec emax 1) alpha) filteredPWM).

Fixpoint stale_ticks_sf (prec emax : Z) (n : nat) (pwm : Z)
         (filteredPWM : SpecFloat.spec_float) : SpecFloat.spec_float :=
  match n with
  | O => filteredPWM
  | S k =>
      lowPassFilter_sf prec emax (sf_of_Z prec emax pwm)
                       (stale_ticks_sf prec emax k pwm filteredPWM)
                       (sf_half prec emax)
  end.

(** ** Concrete runs *)

(** A controller that always answers [o]. *)
Definition constant_pid (o : Q) : unit -> Z -> Q -> Q -> Q -> unit * Q :=
  fun p _ _ _ _ => (p, o).

(** A state whose channels hold values of an earlier tick. *)
Definition stale_forward : State unit :=
  mkState 1500 true 0 0 0 0 1500 1500 0 0 0 120 0 tt (mkChannels 120 0) [].

Definition stale_reverse : State unit :=
  mkState 1500 true 0 0 0 0 1500 1500 0 0 0 (-90) 90 tt (mkChannels 0 90) [].

(** A pulse of [width] microseconds starting at [t], then a pass of [loop]
    at [ms] milliseconds with the sensor reading [a]. *)
Definition pulse_then_tick (t width ms a : Z) : list Event :=
  [Edge true t; Edge false (t + width); Tick (mkTickIn ms a ms)].

(** The samples 1500, 1600, 1500, 1400, one per tick. *)
Definition sample_run : list Event :=
  pulse_then_tick 0 1500 50 200 ++
  pulse_then_tick 20000 1600 100 200 ++
  pulse_then_tick 40000 1500 150 200 ++
  pulse_then_tick 60000 1400 200 200.

(** No further pulse: four passes of [loop], of which the one at 60 ms
    comes too early, and a rising edge. *)
Definition stale_run : list Event :=
  [Tick (mkTickIn 50 200 50); Edge true 70000; Tick (mkTickIn 60 200 60);
   Tick (mkTickIn 100 200 100); Tick (mkTickIn 150 200 150)].

(** The start state with another high-pass value. *)
Definition setup_highPass (h : Q) : State PID.t :=
  mkState 0 false 0 0 0 0 1500 1500 h 0 0 0 0 PID1_setup (mkChannels 0 0) [].

(** A setpoint of 200 against a measurement of -200 for [n] ticks, 50 ms
    apart, then the opposite for one tick. *)
Definition windup_scenario (n : nat) : list (Z * Q * Q) :=
  List.map (fun k => (50 * Z.of_nat (S k), 200%Q, (-200)%Q)) (seq 0 n)
  ++ [(50 * Z.of_nat (S n), (-200)%Q, 200%Q)].

(** * Properties *)

(** ** Arithmetic helpers *)

Lemma wrap32_sub_to_long (a b : Z) : wrap32 (a - to_long b) = wrap32 (a - b).
Proof.
  unfold to_long, wrap32.
  destruct (b mod 2 ^ 32 <? 2 ^ 31).
  - now rewrite Zminus_mod_idemp_r.
  - replace (a - (b mod 2 ^ 32 - 2 ^ 32)) with (a - b mod 2 ^ 32 + 1 * 2 ^ 32)
      by ring.
    now rewrite Z_mod_plus_full, Zminus_mod_idemp_r.
Qed.

Lemma abs_is_Qabs (x : Q) : (Arduino.abs x == Qabs x)%Q.
Proof.
  unfold Arduino.abs. destruct (Qlt_le_dec 0 x) as [H | H].
  - symmetry. apply Qabs_pos. now apply Qlt_le_weak.
  - symmetry. now apply Qabs_neg.
Qed.

Lemma double_to_int_pos (q : Q) : (1 <= q)%Q -> 0 < double_to_int q.
Proof.
  unfold Qle, double_to_int, double_to_long. cbn [Qnum Qden]. intros H.
  assert (1 <= Z.quot (Qnum q) (Z.pos (Qden q))); [| lia].
  apply Z.quot_le_lower_bound; lia.
Qed.

(** ** The deadband and the drive logic *)

Lemma apply_deadband_inside (o : Q) :
  (Qabs o < deadband)%Q -> apply_deadband o = 0%Q.
Proof.
  intros H. unfold apply_deadband.
  destruct (Qlt_le_dec (Arduino.abs o) deadband) as [_ | H']; [reflexivity |].
  rewrite abs_is_Qabs in H'. exfalso. apply (Qlt_not_le _ _ H H').
Qed.

Lemma apply_deadband_cases (o : Q) :
  apply_deadband o = 0%Q \/
  (apply_deadband o = o /\ (deadband <= Qabs o)%Q).
Proof.
  unfold apply_deadband.
  destruct (Qlt_le_dec (Arduino.abs o) deadband) as [H | H].
  - now left.
  - right. split; [reflexivity |]. now rewrite <- abs_is_Qabs.
Qed.

(** Outside the deadband exactly one of the two moving branches is taken. *)
Lemma drive_branch_outside (o : Q) :
  (deadband <= Qabs o)%Q ->
  (drive_branch o = Some FORWARD /\ (deadband <= o)%Q) \/
  (drive_branch o = Some REVERSE /\ (deadband <= Arduino.abs o)%Q).
Proof.
  intros H. unfold drive_branch, deadband in *.
  destruct (Qeq_bool o 0) eqn:E.
  - apply Qeq_bool_eq in E. rewrite E in H. exfalso.
    revert H. cbn. unfold Qle. cbn. lia.
  - destruct (Qlt_le_dec 0 o) as [Hp | Hn].
    + left. split; [reflexivity |].
      rewrite Qabs_pos in H by now apply Qlt_le_weak. exact H.
    + destruct (Qlt_le_dec o 0) as [Hlt | Hge].
      * right. split; [reflexivity |]. now rewrite abs_is_Qabs.
      * exfalso. apply Qeq_bool_neq in E. apply E. now apply Qle_antisym.
Qed.

(** The three possible results of the drive logic on a deadbanded output,
    whatever the channels held before. *)
Lemma drive_cases (o a : Q) (c : Channels) :
  let o' := apply_deadband o in
  let c' := snd (drive o' a c) in
  (drive_branch o' = Some STOPPED /\ duty1 c' = 0 /\ duty2 c' = 0) \/
  (drive_branch o' = Some FORWARD /\ 0 < duty1 c' /\ duty2 c' = 0) \/
  (drive_branch o' = Some REVERSE /\ duty1 c' = 0 /\ 0 < duty2 c').
Proof.
  cbv zeta. destruct (apply_deadband_cases o) as [E | [E H]]; rewrite E.
  - left. unfold drive. cbn. auto.
  - destruct (drive_branch_outside o H) as [[B Hb] | [B Hb]];
      unfold drive; rewrite B; cbn [snd analogWrite duty1 duty2];
      cbn; right; [left | right]; repeat split; trivial;
      apply double_to_int_pos; unfold deadband in Hb;
      (eapply Qle_trans; [| exact Hb]); unfold Qle; cbn; lia.
Qed.

Section ControlLoopFacts.

Context {pid : Type} (Compute : pid -> Z -> Q -> Q -> Q -> pid * Q).

(** A pass that finds the period not elapsed only stores the clock. *)
Lemma loop_not_due (s : State pid) (i : TickIn) :
  due s i = false ->
  loop Compute s i =
  mkState (pwm s) (done s) (start s)
          (t_loop i) (previousMillis s) (pot s)
          (previousPWM s) (filteredPWM s) (highPassPWM s)
          (Setpoint1 s) (Input1 s) (Output1 s) (Output1a s) (PID1 s)
          (channels s) (serial s).
Proof. intros H. unfold loop. now rewrite H. Qed.

Lemma loop_due_channels (s : State pid) (i : TickIn) :
  due s i = true ->
  channels (loop Compute s i) =
  snd (drive (apply_deadband (snd (tick_compute Compute s i)))
             (Output1a s) (channels s)).
Proof. intros H. unfold loop. now rewrite H. Qed.

Lemma loop_due_Output1 (s : State pid) (i : TickIn) :
  due s i = true ->
  Output1 (loop Compute s i) = apply_deadband (snd (tick_compute Compute s i)).
Proof. intros H. unfold loop. now rewrite H. Qed.

End ControlLoopFacts.

(** ** C1: the H-bridge invariant *)

(** C1.  On every tick that runs, whatever the controller returned, the two
    magnitudes written to the drive channels are: one nonzero and the other
    zero, or both zero.  Both channels are never nonzero together. *)
Theorem hbridge_invariant :
  forall (pid : Type) (Compute : pid -> Z -> Q -> Q -> Q -> pid * Q)
         (s : State pid) (i : TickIn),
    due s i = true ->
    let c := channels (loop Compute s i) in
    (duty1 c <> 0 /\ duty2 c = 0) \/
    (duty1 c = 0 /\ duty2 c <> 0) \/
    (duty1 c = 0 /\ duty2 c = 0).
Proof.
  intros pid Compute s i H. cbv zeta.
  rewrite (loop_due_channels Compute s i H).
  destruct (drive_cases (snd (tick_compute Compute s i)) (Output1a s) (channels s))
    as [(_ & A & B) | [(_ & A & B) | (_ & A & B)]].
  - right; right. now split.
  - left. split; [lia | exact B].
  - right; left. split; [exact A | lia].
Qed.

Lemma hbridge_invariant_witness :
  due setup (mkTickIn 50 0 50) = true /\
  let c := channels (sketch_loop setup (mkTickIn 50 0 50)) in
  (duty1 c <> 0 /\ duty2 c = 0) \/
  (duty1 c = 0 /\ duty2 c <> 0) \/
  (duty1 c = 0 /\ duty2 c = 0).
Proof.
  split; [reflexivity |].
  apply (hbridge_invariant PID.t PID.Compute setup (mkTickIn 50 0 50)).
  reflexivity.
Defined.

(** In every run from the start state the channels are never both nonzero. *)
Lemma hbridge_invariant_run
      (pid : Type) (Compute : pid -> Z -> Q -> Q -> Q -> pid * Q)
      (p : pid) (es : list Event) :
  let c := channels (run Compute (initial p) es) in
  duty1 c = 0 \/ duty2 c = 0.
Proof.
  cbv zeta. unfold run.
  assert (G : forall (s : State pid),
             duty1 (channels s) = 0 \/ duty2 (channels s) = 0 ->
             duty1 (channels (fold_left (step Compute) es s)) = 0 \/
             duty2 (channels (fold_left (step Compute) es s)) = 0).
  { induction es as [| e es IH]; intros s Hs; [exact Hs |].
    cbn [fold_left]. apply IH.
    destruct e as [level micros | i]; cbn [step].
    - unfold timeit. now destruct level.
    - destruct (due s i) eqn:D.
      + rewrite (loop_due_channels Compute s i D).
        destruct (drive_cases (snd (tick_compute Compute s i))
                              (Output1a s) (channels s))
          as [(_ & A & B) | [(_ & A & B) | (_ & A & B)]]; auto.
      + now rewrite (loop_not_due Compute s i D). }
  apply G. now left.
Qed.

(** ** C3: the deadband *)

(** C3.  When the controller's output is inside the deadband
    ([|output| < 5]), the tick stores exactly 0 in [Output1], takes the
    STOPPED branch and writes 0 to both channels, whatever they held. *)
Theorem deadband_stops :
  forall (pid : Type) (Compute : pid -> Z -> Q -> Q -> Q -> pid * Q)
         (s : State pid) (i : TickIn),
    due s i = true ->
    (Qabs (snd (tick_compute Compute s i)) < deadband)%Q ->
    let s' := loop Compute s i in
    Output1 s' = 0%Q /\
    drive_branch (Output1 s') = Some STOPPED /\
    duty1 (channels s') = 0 /\
    duty2 (channels s') = 0.
Proof.
  intros pid Compute s i D H. cbv zeta.
  rewrite (loop_due_Output1 Compute s i D), (loop_due_channels Compute s i D).
  rewrite (apply_deadband_inside _ H).
  repeat split.
Qed.

Lemma deadband_stops_witness :
  (let s' := loop (constant_pid 3) stale_forward (mkTickIn 50 200 50) in
   Output1 s' = 0%Q /\ drive_branch (Output1 s') = Some STOPPED /\
   duty1 (channels s') = 0 /\ duty2 (channels s') = 0) /\
  (let s' := loop (constant_pid (-4)) stale_reverse (mkTickIn 50 200 50) in
   Output1 s' = 0%Q /\ drive_branch (Output1 s') = Some STOPPED /\
   duty1 (channels s') = 0 /\ duty2 (channels s') = 0).
Proof.
  split.
  - apply (deadband_stops unit (constant_pid 3) stale_forward
                          (mkTickIn 50 200 50)); reflexivity.
  - apply (deadband_stops unit (constant_pid (-4)) stale_reverse
                          (mkTickIn 50 200 50)); reflexivity.
Defined.

(** ** C6: early ticks are skipped *)

(** C6.  After a tick that ran at time [t1], a call of [loop] at a time
    [t2] less than one sample period later changes nothing but
    [currentMillis]: the PID output and state, the three filter variables,
    the channels, the sensor value, the log and the capture variables are
    as the first call left them. *)
Theorem early_tick_skipped :
  forall (pid : Type) (Compute : pid -> Z -> Q -> Q -> Q -> pid * Q)
         (s : State pid) (i1 i2 : TickIn),
    due s i1 = true ->
    wrap32 (t_loop i2 - t_loop i1) < interval ->
    let s1 := loop Compute s i1 in
    let s2 := loop Compute s1 i2 in
    Output1 s2 = Output1 s1 /\
    PID1 s2 = PID1 s1 /\
    filteredPWM s2 = filteredPWM s1 /\
    highPassPWM s2 = highPassPWM s1 /\
    previousPWM s2 = previousPWM s1 /\
    channels s2 = channels s1 /\
    s2 = mkState (pwm s1) (done s1) (start s1)
                 (t_loop i2) (previousMillis s1) (pot s1)
                 (previousPWM s1) (filteredPWM s1) (highPassPWM s1)
                 (Setpoint1 s1) (Input1 s1) (Output1 s1) (Output1a s1)
                 (PID1 s1) (channels s1) (serial s1).
Proof.
  intros pid Compute s i1 i2 D1 Hlt. cbv zeta.
  assert (D2 : due (loop Compute s i1) i2 = false).
  { unfold due at 1. unfold loop. rewrite D1. cbn [previousMillis].
    rewrite wrap32_sub_to_long. apply Z.leb_gt. exact Hlt. }
  rewrite (loop_not_due Compute _ i2 D2). cbn. repeat split.
Qed.

Lemma early_tick_skipped_witness :
  let s1 := sketch_loop setup (mkTickIn 50 0 50) in
  let s2 := sketch_loop s1 (mkTickIn 99 300 99) in
  Output1 s2 = Output1 s1 /\
  PID1 s2 = PID1 s1 /\
  filteredPWM s2 = filteredPWM s1 /\
  highPassPWM s2 = highPassPWM s1 /\
  previousPWM s2 = previousPWM s1 /\
  channels s2 = channels s1 /\
  s2 = mkState (pwm s1) (done s1) (start s1)
               99 (previousMillis s1) (pot s1)
               (previousPWM s1) (filteredPWM s1) (highPassPWM s1)
               (Setpoint1 s1) (Input1 s1) (Output1 s1) (Output1a s1)
               (PID1 s1) (channels s1) (serial s1).
Proof.
  apply (early_tick_skipped PID.t PID.Compute setup
                            (mkTickIn 50 0 50) (mkTickIn 99 300 99)).
  - reflexivity.
  - reflexivity.
Defined.

(** ** C4: the filters and their order of evaluation *)



(** C4.  A tick that runs computes the low-pass from the old filtered value,
    the high-pass from the old high-pass value and the old previous sample,
    and then stores the raw sample as the previous one, as section 4.3
    orders it; a tick that does not run leaves the three values alone.  On
    the samples 1500, 1600, 1500, 1400 with alpha = 0.5 the sketch prints
    the values of the reference, which are (1500, 0), (1550, 50),
    (1525, -25), (2925/2, -125/2), that is (1462.5, -62.5). *)
Theorem filters_old_state_then_update :
  (forall (pid : Type) (Compute : pid -> Z -> Q -> Q -> Q -> pid * Q)
          (s : State pid) (i : TickIn),
      filter_state (loop Compute s i) =
      if due s i
      then FilterSpec.step alphaLowPass alphaHighPass (filter_state s)
                           (long_to_double (pwm s))
      else filter_state s) /\
  logged_filters (serial (sketch_run setup sample_run)) =
    FilterSpec.outputs (FilterSpec.step 0.5 0.5)
                       (FilterSpec.mk 1500 0 1500) [1500; 1600; 1500; 1400]%Q /\
  logged_filters (serial (sketch_run setup sample_run)) =
    [(1500, 0); (1550, 50); (1525, -25); (2925 # 2, - 125 # 2)]%Q.
Proof.
  split; [| split].
  - intros pid Compute s i. unfold loop, filter_state.
    destruct (due s i); reflexivity.
  - vm_compute. reflexivity.
  - vm_compute. reflexivity.
Qed.

(** Updating the previous sample before the high-pass runs gives other
    numbers on the same samples: the order is observable. *)
Lemma update_first_differs :
  FilterSpec.outputs (FilterSpec.step_update_first 0.5 0.5)
                     (FilterSpec.mk 1500 0 1500) [1500; 1600; 1500; 1400]%Q
  = [(1500, 0); (1550, 0); (1525, 0); (2925 # 2, 0)]%Q /\
  FilterSpec.outputs (FilterSpec.step_update_first 0.5 0.5)
                     (FilterSpec.mk 1500 0 1500) [1500; 1600; 1500; 1400]%Q
  <> logged_filters (serial (sketch_run setup sample_run)).
Proof.
  split; [vm_compute; reflexivity |].
  vm_compute. discriminate.
Qed.

(** ** C7: a stale pulse width *)

(** *** Rounding to nearest *)

Section RoundingBasics.

Local Open Scope Q_scope.

Lemma pow2_pos (k : Z) : 0 < 2 ^ k.
Proof. apply Qpower_0_lt. reflexivity. Qed.

Lemma pow2_nonzero (k : Z) : ~ 2 ^ k == 0.
Proof. intros H. pose proof (pow2_pos k) as P. rewrite H in P. discriminate. Qed.

Lemma pow2_le (a b : Z) : (a <= b)%Z -> 2 ^ a <= 2 ^ b.
Proof. intros H. apply Qpower_le_compat_l; [exact H | discriminate]. Qed.

Lemma pow2_lt (a b : Z) : (a < b)%Z -> 2 ^ a < 2 ^ b.
Proof. intros H. apply Qpower_lt_compat_l; [exact H | reflexivity]. Qed.

Lemma pow2_succ (a : Z) : 2 ^ (a + 1) == 2 * 2 ^ a.
Proof. rewrite Qpower_plus by discriminate. change (2 ^ 1) with 2. ring. Qed.

Lemma pow2_inject (a : Z) : (0 <= a)%Z -> inject_Z (2 ^ a) == 2 ^ a.
Proof. intros H. now rewrite Zpower_Qpower. Qed.

(** A number lies in one binade only. *)
Lemma binade_unique (x : Q) (a b : Z) :
  2 ^ a <= x -> x < 2 ^ (a + 1) -> 2 ^ b <= x -> x < 2 ^ (b + 1) -> a = b.
Proof.
  intros A1 A2 B1 B2.
  assert (H1 : (a < b + 1)%Z).
  { apply Qpower_lt_compat_l_inv with 2; [| reflexivity].
    now apply Qle_lt_trans with x. }
  assert (H2 : (b < a + 1)%Z).
  { apply Qpower_lt_compat_l_inv with 2; [| reflexivity].
    now apply Qle_lt_trans with x. }
  lia.
Qed.

Lemma frac_lt_div (n A B : Z) (d : positive) :
  (0 < B)%Z -> (n * B < A * Z.pos d)%Z -> n # d < inject_Z A / inject_Z B.
Proof.
  intros HB H. apply Qlt_shift_div_l.
  - unfold Qlt. cbn. lia.
  - unfold Qlt. cbn. rewrite Pos.mul_1_r. lia.
Qed.

Lemma frac_ge_div (n A B : Z) (d : positive) :
  (0 < B)%Z -> (A * Z.pos d <= n * B)%Z -> inject_Z A / inject_Z B <= n # d.
Proof.
  intros HB H. apply Qle_shift_div_r.
  - unfold Qlt. cbn. lia.
  - unfold Qle. cbn. rewrite Pos.mul_1_r. lia.
Qed.

Lemma ilog2_spec (x : Q) :
  0 < x -> 2 ^ Float.ilog2 x <= x /\ x < 2 ^ (Float.ilog2 x + 1).
Proof.
  intros Hx. destruct x as [n d].
  assert (Hn : (0 < n)%Z) by (revert Hx; unfold Qlt; cbn; lia).
  unfold Float.ilog2. cbn [Qnum Qden].
  set (a := Z.log2 n). set (b := Z.log2 (Z.pos d)).
  destruct (Z.log2_spec n Hn) as [A1 A2]. fold a in A1, A2.
  destruct (Z.log2_spec (Z.pos d) (Pos2Z.is_pos d)) as [B1 B2]. fold b in B1, B2.
  assert (Ha : (0 <= a)%Z) by apply Z.log2_nonneg.
  assert (Hb : (0 <= b)%Z) by apply Z.log2_nonneg.
  assert (E : forall u v : Z, (0 <= u)%Z -> (0 <= v)%Z ->
                2 ^ (u - v) == inject_Z (2 ^ u) / inject_Z (2 ^ v)).
  { intros u v Hu Hv. rewrite !pow2_inject by assumption.
    unfold Z.sub. rewrite Qpower_plus by discriminate.
    rewrite Qpower_opp. reflexivity. }
  assert (P : forall v : Z, (0 <= v)%Z -> 0 < inject_Z (2 ^ v)).
  { intros v Hv. rewrite pow2_inject by assumption. apply pow2_pos. }
  destruct (Qle_bool (2 ^ (a - b)) (n # d)) eqn:T.
  - apply Qle_bool_iff in T. split; [exact T |].
    replace (a - b + 1)%Z with ((a + 1) - b)%Z by ring.
    rewrite E by lia. unfold Z.succ in A2.
    apply frac_lt_div; [lia | nia].
  - assert (T' : (n # d) < 2 ^ (a - b)).
    { apply Qnot_le_lt. intros C. apply Qle_bool_iff in C. congruence. }
    replace (a - b - 1 + 1)%Z with (a - b)%Z by ring.
    split; [| exact T'].
    replace (a - b - 1)%Z with (a - (b + 1))%Z by ring.
    rewrite E by lia. unfold Z.succ in B2.
    apply frac_ge_div; [lia | nia].
Qed.

Lemma ilog2_unique (x : Q) (e : Z) :
  2 ^ e <= x -> x < 2 ^ (e + 1) -> Float.ilog2 x = e.
Proof.
  intros A B.
  assert (Hx : 0 < x) by (apply Qlt_le_trans with (2 ^ e); [apply pow2_pos | exact A]).
  destruct (ilog2_spec x Hx) as [C D].
  now apply (binade_unique x).
Qed.

Lemma ilog2_comp (x y : Q) : 0 < x -> x == y -> Float.ilog2 x = Float.ilog2 y.
Proof.
  intros Hx E. destruct (ilog2_spec x Hx) as [A B].
  symmetry. apply ilog2_unique; now rewrite <- E.
Qed.

Lemma ilog2_mono (x y : Q) : 0 < x -> x <= y -> (Float.ilog2 x <= Float.ilog2 y)%Z.
Proof.
  intros Hx H.
  assert (Hy : 0 < y) by now apply Qlt_le_trans with x.
  destruct (ilog2_spec x Hx) as [A _]. destruct (ilog2_spec y Hy) as [_ D].
  assert (Float.ilog2 x < Float.ilog2 y + 1)%Z; [| lia].
  apply Qpower_lt_compat_l_inv with 2; [| reflexivity].
  apply Qle_lt_trans with x; [exact A |]. now apply Qle_lt_trans with y.
Qed.

Lemma rne_cases (t : Q) :
  let n := Qfloor t in
  (Float.rne t = n /\ t - inject_Z n <= 1 # 2) \/
  (Float.rne t = (n + 1)%Z /\ 1 # 2 <= t - inject_Z n).
Proof.
  cbv zeta. unfold Float.rne.
  destruct (t - inject_Z (Qfloor t) ?= 1 # 2) eqn:C.
  - apply Qeq_alt in C.
    destruct (Z.even (Qfloor t)); [left | right]; split; trivial;
      rewrite C; apply Qle_refl.
  - apply Qlt_alt in C. left. split; [reflexivity | now apply Qlt_le_weak].
  - apply Qgt_alt in C. right. split; [reflexivity | now apply Qlt_le_weak].
Qed.

Lemma floor_bounds (t : Q) :
  inject_Z (Qfloor t) <= t /\ t < inject_Z (Qfloor t) + 1.
Proof.
  split; [apply Qfloor_le |].
  pose proof (Qlt_floor t) as H. rewrite inject_Z_plus in H. exact H.
Qed.

Lemma rne_error (t : Q) : Qabs (inject_Z (Float.rne t) - t) <= 1 # 2.
Proof.
  destruct (floor_bounds t) as [A B].
  apply Qabs_Qle_condition.
  destruct (rne_cases t) as [[E H] | [E H]]; rewrite E;
    try rewrite inject_Z_plus; change (inject_Z 1) with 1; split; lra.
Qed.

Lemma rne_Z (k : Z) : Float.rne (inject_Z k) = k.
Proof.
  unfold Float.rne. rewrite Qfloor_Z.
  assert (E : (inject_Z k - inject_Z k ?= 1 # 2) = Lt).
  { apply Qlt_alt. setoid_replace (inject_Z k - inject_Z k) with 0 by ring.
    reflexivity. }
  now rewrite E.
Qed.

Lemma rne_comp (t u : Q) : t == u -> Float.rne t = Float.rne u.
Proof.
  intros E. unfold Float.rne. rewrite (Qfloor_comp t u E).
  assert (C : (t - inject_Z (Qfloor u) ?= 1 # 2)
              = (u - inject_Z (Qfloor u) ?= 1 # 2)).
  { apply Qcompare_comp; [now rewrite E | reflexivity]. }
  now rewrite C.
Qed.

Lemma rne_mono (t u : Q) : t <= u -> (Float.rne t <= Float.rne u)%Z.
Proof.
  intros H. pose proof (Qfloor_resp_le t u H) as F.
  destruct (floor_bounds t) as [A B]. destruct (floor_bounds u) as [C D].
  destruct (Z.eq_dec (Qfloor t) (Qfloor u)) as [E | N].
  - unfold Float.rne. rewrite E in *.
    destruct (Qcompare_spec (t - inject_Z (Qfloor u)) (1 # 2)) as [Ct | Ct | Ct];
      destruct (Qcompare_spec (u - inject_Z (Qfloor u)) (1 # 2)) as [Cu | Cu | Cu];
      try (destruct (Z.even (Qfloor u))); try lia; exfalso; lra.
  - destruct (rne_cases t) as [[Et _] | [Et _]];
      destruct (rne_cases u) as [[Eu _] | [Eu _]]; lia.
Qed.

Lemma rne_ge_Z (k : Z) (t : Q) : inject_Z k <= t -> (k <= Float.rne t)%Z.
Proof. intros H. rewrite <- (rne_Z k). now apply rne_mono. Qed.

Lemma rne_le_Z (k : Z) (t : Q) : t <= inject_Z k -> (Float.rne t <= k)%Z.
Proof. intros H. rewrite <- (rne_Z k). now apply rne_mono. Qed.

End RoundingBasics.

Section RoundFacts.

Local Open Scope Q_scope.

Variables (prec emin : Z).
Hypothesis Hprec : (1 <= prec)%Z.

Lemma normal_pos (x : Q) : Float.min_normal prec emin <= x -> 0 < x.
Proof. intros H. apply Qlt_le_trans with (Float.min_normal prec emin); [apply pow2_pos | exact H]. Qed.

Lemma normal_ilog2 (x : Q) : Float.min_normal prec emin <= x -> (emin + prec - 1 <= Float.ilog2 x)%Z.
Proof.
  intros H. pose proof (normal_pos x H) as P.
  destruct (ilog2_spec x P) as [_ B].
  assert (emin + prec - 1 < Float.ilog2 x + 1)%Z; [| lia].
  apply Qpower_lt_compat_l_inv with 2; [| reflexivity].
  now apply Qle_lt_trans with x.
Qed.

Lemma qexp_normal (x : Q) :
  Float.min_normal prec emin <= x -> Float.quantum_exp prec emin x = (Float.ilog2 x - (prec - 1))%Z.
Proof.
  intros H. pose proof (normal_pos x H) as P.
  unfold Float.quantum_exp.
  rewrite (ilog2_comp (Qabs x) x).
  - pose proof (normal_ilog2 x H). lia.
  - rewrite Qabs_pos; [exact P | now apply Qlt_le_weak].
  - apply Qabs_pos. now apply Qlt_le_weak.
Qed.

Lemma round_normal (x : Q) :
  Float.min_normal prec emin <= x ->
  Float.round prec emin x == inject_Z (Float.rne (x / 2 ^ Float.quantum_exp prec emin x)) * 2 ^ Float.quantum_exp prec emin x.
Proof.
  intros H. pose proof (normal_pos x H) as P. unfold Float.round.
  destruct (Qeq_bool x 0) eqn:E; [| reflexivity].
  apply Qeq_bool_eq in E. rewrite E in P. discriminate.
Qed.

(** The significand of a normal number is at least [2^(prec-1)] and
    below [2^prec]. *)
Lemma scaled_bounds (x : Q) :
  Float.min_normal prec emin <= x ->
  inject_Z (2 ^ (prec - 1)) <= x / 2 ^ Float.quantum_exp prec emin x /\
  x / 2 ^ Float.quantum_exp prec emin x < inject_Z (2 ^ prec).
Proof.
  intros H. pose proof (normal_pos x H) as P.
  destruct (ilog2_spec x P) as [A B].
  rewrite (qexp_normal x H). rewrite !pow2_inject by lia.
  set (e := Float.ilog2 x) in *.
  pose proof (pow2_pos (e - (prec - 1))) as Q0.
  split.
  - apply Qle_shift_div_l; [exact Q0 |].
    rewrite <- Qpower_plus by discriminate.
    now replace (prec - 1 + (e - (prec - 1)))%Z with e by ring.
  - apply Qlt_shift_div_r; [exact Q0 |].
    rewrite <- Qpower_plus by discriminate.
    now replace (prec + (e - (prec - 1)))%Z with (e + 1)%Z by ring.
Qed.

Lemma round_lower (x : Q) :
  Float.min_normal prec emin <= x -> 2 ^ Float.ilog2 x <= Float.round prec emin x.
Proof.
  intros H. rewrite (round_normal x H).
  destruct (scaled_bounds x H) as [A _].
  apply rne_ge_Z in A. rewrite Zle_Qle, pow2_inject in A by lia.
  rewrite (qexp_normal x H) in *.
  set (e := Float.ilog2 x) in *.
  replace e with (prec - 1 + (e - (prec - 1)))%Z at 1 by ring.
  rewrite Qpower_plus by discriminate.
  apply Qmult_le_r; [apply pow2_pos | exact A].
Qed.

Lemma round_upper (x : Q) :
  Float.min_normal prec emin <= x -> Float.round prec emin x <= 2 ^ (Float.ilog2 x + 1).
Proof.
  intros H. rewrite (round_normal x H).
  destruct (scaled_bounds x H) as [_ B].
  apply Qlt_le_weak, rne_le_Z in B. rewrite Zle_Qle, pow2_inject in B by lia.
  rewrite (qexp_normal x H) in *.
  set (e := Float.ilog2 x) in *.
  replace (e + 1)%Z with (prec + (e - (prec - 1)))%Z by ring.
  rewrite Qpower_plus by discriminate.
  apply Qmult_le_r; [apply pow2_pos | exact B].
Qed.

Lemma round_normal_stays (x : Q) : Float.min_normal prec emin <= x -> Float.min_normal prec emin <= Float.round prec emin x.
Proof.
  intros H. apply Qle_trans with (2 ^ Float.ilog2 x); [| now apply round_lower].
  apply pow2_le. now apply normal_ilog2.
Qed.

Lemma round_comp_normal (x y : Q) :
  Float.min_normal prec emin <= x -> x == y -> Float.round prec emin x == Float.round prec emin y.
Proof.
  intros H E. assert (H' : Float.min_normal prec emin <= y) by now rewrite <- E.
  rewrite (round_normal x H), (round_normal y H').
  rewrite (qexp_normal x H), (qexp_normal y H').
  rewrite (ilog2_comp x y (normal_pos x H) E).
  rewrite (rne_comp (x / _) (y / 2 ^ (Float.ilog2 y - (prec - 1)))).
  - reflexivity.
  - now rewrite E.
Qed.

Lemma round_mono (x y : Q) :
  Float.min_normal prec emin <= x -> x <= y -> Float.round prec emin x <= Float.round prec emin y.
Proof.
  intros H L. assert (H' : Float.min_normal prec emin <= y) by now apply Qle_trans with x.
  pose proof (ilog2_mono x y (normal_pos x H) L) as M.
  destruct (Z.eq_dec (Float.ilog2 x) (Float.ilog2 y)) as [E | N].
  - rewrite (round_normal x H), (round_normal y H').
    rewrite (qexp_normal x H), (qexp_normal y H'), E.
    apply Qmult_le_r; [apply pow2_pos |]. rewrite <- Zle_Qle.
    apply rne_mono. apply Qmult_le_r; [| exact L].
    apply Qinv_lt_0_compat, pow2_pos.
  - apply Qle_trans with (2 ^ (Float.ilog2 x + 1)); [now apply round_upper |].
    apply Qle_trans with (2 ^ Float.ilog2 y); [| now apply round_lower].
    apply pow2_le. lia.
Qed.

(** The rounding error is at most half a unit in the last place, hence at
    most [x * 2^-prec]. *)
Lemma round_error (x : Q) :
  Float.min_normal prec emin <= x -> Qabs (Float.round prec emin x - x) <= x * 2 ^ (- prec).
Proof.
  intros H. pose proof (normal_pos x H) as P.
  destruct (ilog2_spec x P) as [A _].
  rewrite (round_normal x H), (qexp_normal x H) in *.
  set (e := Float.ilog2 x) in *. set (q := 2 ^ (e - (prec - 1))).
  assert (Q0 : 0 < q) by apply pow2_pos.
  assert (E : inject_Z (Float.rne (x / q)) * q - x
              == (inject_Z (Float.rne (x / q)) - x / q) * q).
  { field. intros C. rewrite C in Q0. discriminate. }
  rewrite E, Qabs_Qmult, (Qabs_pos q) by now apply Qlt_le_weak.
  apply Qle_trans with ((1 # 2) * q).
  - apply Qmult_le_r; [exact Q0 | apply rne_error].
  - assert (Eq : (1 # 2) * q == 2 ^ e * 2 ^ (- prec)).
    { unfold q. rewrite <- Qpower_plus by discriminate.
      replace (e + - prec)%Z with (-1 + (e - (prec - 1)))%Z by ring.
      rewrite Qpower_plus by discriminate. reflexivity. }
    rewrite Eq. apply Qmult_le_r; [apply pow2_pos | exact A].
Qed.

(** A multiple of the unit in the last place of its own binade is
    representable. *)
Lemma round_multiple (x : Q) (k : Z) :
  Float.min_normal prec emin <= x ->
  x == inject_Z k * 2 ^ Float.quantum_exp prec emin x ->
  Float.round prec emin x == x.
Proof.
  intros H E. rewrite (round_normal x H).
  rewrite (rne_comp (x / 2 ^ Float.quantum_exp prec emin x) (inject_Z k)).
  - rewrite rne_Z. now symmetry.
  - rewrite E at 1. field. apply pow2_nonzero.
Qed.

Lemma round_pow2 (k : Z) :
  (emin + prec - 1 <= k)%Z -> Float.round prec emin (2 ^ k) == 2 ^ k.
Proof.
  intros H.
  assert (N : Float.min_normal prec emin <= 2 ^ k) by now apply pow2_le.
  apply (round_multiple _ (2 ^ (prec - 1)) N).
  rewrite (qexp_normal _ N).
  rewrite (ilog2_unique (2 ^ k) k); [| apply Qle_refl | apply pow2_lt; lia].
  rewrite pow2_inject by lia. rewrite <- Qpower_plus by discriminate.
  now replace (prec - 1 + (k - (prec - 1)))%Z with k by ring.
Qed.

Lemma round_idem (x : Q) : Float.min_normal prec emin <= x -> Float.round prec emin (Float.round prec emin x) == Float.round prec emin x.
Proof.
  intros H. pose proof (round_normal_stays x H) as H'.
  pose proof (round_lower x H) as L. pose proof (round_upper x H) as U.
  set (e := Float.ilog2 x) in *.
  destruct (Qlt_le_dec (Float.round prec emin x) (2 ^ (e + 1))) as [C | C].
  - apply (round_multiple _ (Float.rne (x / 2 ^ Float.quantum_exp prec emin x)) H').
    rewrite (qexp_normal _ H'), (ilog2_unique (Float.round prec emin x) e L C).
    unfold e. rewrite <- (qexp_normal x H). now apply round_normal.
  - assert (E : Float.round prec emin x == 2 ^ (e + 1)) by now apply Qle_antisym.
    rewrite (round_comp_normal _ _ H' E), E.
    apply round_pow2. pose proof (normal_ilog2 x H). fold e in H0. lia.
Qed.

(** Halving is exact. *)
Lemma round_half (x : Q) :
  Float.min_normal prec emin <= (1 # 2) * x -> Float.round prec emin ((1 # 2) * x) == (1 # 2) * Float.round prec emin x.
Proof.
  intros H.
  assert (Hx : Float.min_normal prec emin <= x).
  { apply Qle_trans with ((1 # 2) * x); [exact H |].
    pose proof (normal_pos _ H). lra. }
  pose proof (normal_pos x Hx) as P.
  destruct (ilog2_spec x P) as [A B].
  assert (S : 2 ^ Float.ilog2 x == 2 * 2 ^ (Float.ilog2 x - 1)).
  { rewrite <- pow2_succ.
    now replace (Float.ilog2 x - 1 + 1)%Z with (Float.ilog2 x) by ring. }
  assert (L : Float.ilog2 ((1 # 2) * x) = (Float.ilog2 x - 1)%Z).
  { apply ilog2_unique.
    - rewrite S in A. lra.
    - replace (Float.ilog2 x - 1 + 1)%Z with (Float.ilog2 x) by ring.
      rewrite pow2_succ in B. lra. }
  rewrite (round_normal _ H), (round_normal x Hx).
  rewrite (qexp_normal _ H), (qexp_normal x Hx), L.
  set (e := Float.ilog2 x).
  assert (Q2 : 2 ^ (e - (prec - 1)) == 2 * 2 ^ (e - 1 - (prec - 1))).
  { rewrite <- pow2_succ.
    now replace (e - 1 - (prec - 1) + 1)%Z with (e - (prec - 1))%Z by ring. }
  rewrite (rne_comp ((1 # 2) * x / 2 ^ (e - 1 - (prec - 1)))
                    (x / 2 ^ (e - (prec - 1)))).
  - set (k := inject_Z (Float.rne (x / 2 ^ (e - (prec - 1))))).
    rewrite Q2. ring.
  - rewrite Q2. field. apply pow2_nonzero.
Qed.


Hypothesis Hemin : (emin + prec <= 0)%Z.

Lemma min_normal_le_half : Float.min_normal prec emin <= 1 # 2.
Proof.
  change (1 # 2) with (2 ^ (-1)). apply pow2_le. lia.
Qed.

Lemma normal_of_ge_half (x : Q) : 1 # 2 <= x -> Float.min_normal prec emin <= x.
Proof. intros H. apply Qle_trans with (1 # 2); [apply min_normal_le_half | exact H]. Qed.


(** One rounded filter step with the sketch's factor is the rounded
    midpoint. *)
Lemma filter_step_midpoint (r f : Q) :
  Float.representable prec emin r -> 1 <= r ->
  Float.representable prec emin f -> 1 <= f ->
  lowPassFilter_rounded prec emin r f alphaLowPass
  == Float.round prec emin ((1 # 2) * r + (1 # 2) * f).
Proof.
  unfold Float.representable. intros Rr R1 Rf F1.
  unfold lowPassFilter_rounded, Float.add, Float.mul, Float.sub.
  assert (A : Float.round prec emin (alphaLowPass * r) == (1 # 2) * r).
  { rewrite (round_comp_normal _ ((1 # 2) * r)).
    - rewrite round_half by (trivial; apply normal_of_ge_half; lra).
      now rewrite Rr.
    - apply normal_of_ge_half. unfold alphaLowPass. lra.
    - unfold alphaLowPass. ring. }
  assert (S : Float.round prec emin (1 - alphaLowPass) == 1 # 2).
  { rewrite (round_comp_normal _ (2 ^ (-1))).
    - apply round_pow2. lia.
    - apply normal_of_ge_half. unfold alphaLowPass. lra.
    - reflexivity. }
  assert (B : Float.round prec emin (Float.round prec emin (1 - alphaLowPass) * f)
              == (1 # 2) * f).
  { rewrite (round_comp_normal _ ((1 # 2) * f)).
    - rewrite round_half by (trivial; apply normal_of_ge_half; lra).
      now rewrite Rf.
    - apply normal_of_ge_half. rewrite S. lra.
    - now rewrite S. }
  apply (round_comp_normal).
  - apply normal_of_ge_half. rewrite A, B. lra.
  - now rewrite A, B.
Qed.


Lemma in_float_range_normal (x : Q) :
  in_float_range prec emin x -> Float.min_normal prec emin <= x.
Proof. intros [_ [H _]]. apply normal_of_ge_half. lra. Qed.


(** What one rounded filter step does. *)
Lemma filter_step_rounded (r f : Q) :
  in_float_range prec emin r ->
  in_float_range prec emin f ->
  let f' := lowPassFilter_rounded prec emin r f alphaLowPass in
  let m := lowPassFilter r f alphaLowPass in
  in_float_range prec emin f' /\
  Qmin f r <= f' <= Qmax f r /\
  Qabs (f' - m) <= m * 2 ^ (- prec) /\
  (Float.representable prec emin m -> f' - r == (1 - alphaLowPass) * (f - r)) /\
  (f' == r -> Qabs (f - r) <= (r + f) * 2 ^ (- prec)).
Proof.
  intros Ir If. cbv zeta.
  pose proof (in_float_range_normal r Ir) as Nr.
  pose proof (in_float_range_normal f If) as Nf.
  destruct Ir as [Rr [R1 R2]]. destruct If as [Rf [F1 F2]].
  pose proof (filter_step_midpoint r f Rr R1 Rf F1) as E.
  set (f' := lowPassFilter_rounded prec emin r f alphaLowPass) in *.
  set (m' := (1 # 2) * r + (1 # 2) * f) in *.
  assert (M : lowPassFilter r f alphaLowPass == m').
  { unfold lowPassFilter, alphaLowPass, m'. ring. }
  assert (Nm : Float.min_normal prec emin <= m').
  { apply normal_of_ge_half. unfold m'. lra. }
  assert (B : Qmin f r <= f' <= Qmax f r).
  { unfold Float.representable in Rr, Rf. rewrite E.
    destruct (Qlt_le_dec r f) as [C | C].
    - rewrite Q.min_r, Q.max_l by lra.
      assert (X : r <= m' /\ m' <= f) by (unfold m'; split; lra).
      pose proof (round_mono r m' Nr (proj1 X)) as L.
      pose proof (round_mono m' f Nm (proj2 X)) as U.
      rewrite Rr in L. rewrite Rf in U. now split.
    - rewrite Q.min_l, Q.max_r by lra.
      assert (X : f <= m' /\ m' <= r) by (unfold m'; split; lra).
      pose proof (round_mono f m' Nf (proj1 X)) as L.
      pose proof (round_mono m' r Nm (proj2 X)) as U.
      rewrite Rf in L. rewrite Rr in U. now split. }
  assert (Er : Qabs (f' - m') <= m' * 2 ^ (- prec)).
  { rewrite E. now apply round_error. }
  split; [| split; [exact B | split; [| split]]].
  - split.
    + unfold Float.representable.
      rewrite (round_comp_normal f' (Float.round prec emin m')).
      * rewrite round_idem by exact Nm. now symmetry.
      * rewrite E. now apply round_normal_stays.
      * exact E.
    + destruct B as [B1 B2]. split.
      * apply Qle_trans with (Qmin f r); [| exact B1].
        apply Q.min_glb; assumption.
      * apply Qle_trans with (Qmax f r); [exact B2 |].
        apply Q.max_lub; assumption.
  - now rewrite M.
  - intros Rm. unfold Float.representable in Rm.
    assert (Em : f' == m').
    { rewrite E. rewrite <- M at 2. rewrite <- Rm.
      apply round_comp_normal; [exact Nm | now symmetry]. }
    rewrite Em. unfold m', alphaLowPass. ring.
  - intros Ef. rewrite Ef in Er.
    assert (D : r - m' == (1 # 2) * (r - f)) by (unfold m'; ring).
    rewrite D, Qabs_Qmult in Er. change (Qabs (1 # 2)) with (1 # 2) in Er.
    assert (D' : Qabs (f - r) == Qabs (r - f)).
    { rewrite <- Qabs_opp. apply Qabs_wd. ring. }
    rewrite D'. unfold m' in Er.
    pose proof (pow2_pos (- prec)) as P.
    set (u := 2 ^ (- prec)) in *. set (a := Qabs (r - f)) in *.
    assert (T : (r + f) * u == 2 * (((1 # 2) * r + (1 # 2) * f) * u)) by ring.
    rewrite T. lra.
Qed.


End RoundFacts.


(** *** The filtered value under a stale width *)




(** The same run, tick by tick: the distance to 1600 is halved exactly for
    15 ticks, then rounded, and is zero from tick 21 on; in the 64-bit
    format zero is reached at tick 50. *)
Lemma stale_signal_tick_by_tick :
  List.map (fun n => Qred (1600 - stale_ticks 24 (-149) n 1600 1500))
           [0; 1; 2; 15; 16; 17; 20; 21; 22]%nat
  = [100; 50; 25; 25 # 8192; 3 # 2048; 3 # 4096; 1 # 8192; 0; 0]%Q /\
  List.map (fun n => Qred (1600 - stale_ticks 53 (-1074) n 1600 1500))
           [49; 50; 51]%nat
  = [1 # 4398046511104; 0; 0]%Q.
Proof. split; vm_compute; reflexivity. Qed.

(** On these runs the rounding above and the IEEE 754 operations of the
    Standard Library give the same values at every tick. *)
Lemma rounding_agrees_with_SpecFloat :
  List.map (fun n => Qred (stale_ticks 24 (-149) n 1600 1500)) (seq 0 30)
  = List.map (fun n => Qred (SF2Q (stale_ticks_sf 24 128 n 1600
                                                   (sf_of_Z 24 128 1500))))
             (seq 0 30) /\
  List.map (fun n => Qred (stale_ticks 53 (-1074) n 1600 1500)) (seq 0 60)
  = List.map (fun n => Qred (SF2Q (stale_ticks_sf 53 1024 n 1600
                                                   (sf_of_Z 53 1024 1500))))
             (seq 0 60).
Proof. split; vm_compute; reflexivity. Qed.

(** ** C9: the high-pass value is diagnostic only *)

Lemma step_control_view
      {pid : Type} (Compute : pid -> Z -> Q -> Q -> Q -> pid * Q)
      (s1 s2 : State pid) (e : Event) :
  control_view s1 = control_view s2 ->
  control_view (step Compute s1 e) = control_view (step Compute s2 e).
Proof.
  destruct s1, s2. unfold control_view. cbn [pwm done start currentMillis
    previousMillis pot previousPWM filteredPWM Setpoint1 Input1 Output1
    Output1a PID1 channels serial].
  intros H. injection H as -> -> -> -> -> -> -> -> -> -> -> -> -> -> L.
  destruct e as [level micros | i]; cbn [step].
  - unfold timeit. destruct level; cbn [pwm done start currentMillis
      previousMillis pot previousPWM filteredPWM Setpoint1 Input1 Output1
      Output1a PID1 channels serial]; now rewrite L.
  - unfold loop, due. cbn [pwm done start currentMillis
      previousMillis pot previousPWM filteredPWM highPassPWM Setpoint1 Input1
      Output1 Output1a PID1 channels serial].
    destruct (interval <=? wrap32 (t_loop i - previousMillis1));
      cbn [pwm done start currentMillis
      previousMillis pot previousPWM filteredPWM Setpoint1 Input1 Output1
      Output1a PID1 channels serial].
    + rewrite !map_app, L. reflexivity.
    + now rewrite L.
Qed.

(** C9.  Two runs of the same events from states that differ only in the
    high-pass value end in states that differ only in the high-pass value
    and the high-pass field of the printed lines: the setpoint, the
    measured input, the PID state and output, the channels, the other
    filter variables and the rest of every printed line are the same.  As
    this holds for every run, it holds after every tick. *)
Theorem highpass_diagnostic_only :
  forall (pid : Type) (Compute : pid -> Z -> Q -> Q -> Q -> pid * Q)
         (es : list Event) (s1 s2 : State pid),
    control_view s1 = control_view s2 ->
    control_view (run Compute s1 es) = control_view (run Compute s2 es).
Proof.
  intros pid Compute es. unfold run.
  induction es as [| e es IH]; intros s1 s2 H; [exact H |].
  cbn [fold_left]. apply IH. now apply step_control_view.
Qed.

Lemma highpass_diagnostic_only_witness :
  control_view (sketch_run setup sample_run) =
  control_view (sketch_run (setup_highPass 777) sample_run).
Proof.
  apply (highpass_diagnostic_only PID.t PID.Compute sample_run
                                  setup (setup_highPass 777)).
  reflexivity.
Defined.

(** The printed lines do show the difference. *)
Lemma highpass_reaches_the_log :
  logged_filters (serial (sketch_run (setup_highPass 777) sample_run)) =
  [(1500, 777 # 2); (1550, 977 # 4); (1525, 577 # 8); (2925 # 2, - 223 # 16)]%Q.
Proof. vm_compute. reflexivity. Qed.

(** ** C10: the sample-ready flag *)

(** C10.  On a tick that runs, the state after the tick is the same whether
    [done] was set or not: the sensor is read, the filters, the two
    mappings, the controller, the deadband and the drive writes all run,
    and [done] is false afterwards. *)
Theorem done_never_gates :
  forall (pid : Type) (Compute : pid -> Z -> Q -> Q -> Q -> pid * Q)
         (s : State pid) (i : TickIn) (b : bool),
    due s i = true ->
    let s' := loop Compute (set_done b s) i in
    s' = loop Compute (set_done (negb b) s) i /\
    done s' = false /\
    pot s' = analog i /\
    filter_state s' =
      FilterSpec.step alphaLowPass alphaHighPass (filter_state s)
                      (long_to_double (pwm s)) /\
    Setpoint1 s' = tick_Setpoint1 s /\
    Input1 s' = tick_Input1 i /\
    PID1 s' = fst (tick_compute Compute s i) /\
    Output1 s' = apply_deadband (snd (tick_compute Compute s i)) /\
    channels s' =
      snd (drive (apply_deadband (snd (tick_compute Compute s i)))
                 (Output1a s) (channels s)) /\
    serial s' =
      serial s ++
      [mkLogLine (analog i)
                 (lowPassFilter (long_to_double (pwm s)) (filteredPWM s)
                                alphaLowPass)
                 (highPassFilter (highPassPWM s) (long_to_double (pwm s))
                                 (previousPWM s) alphaHighPass)
                 (pwm s) (Output1 s)].
Proof.
  intros pid Compute s i b D. cbv zeta.
  assert (Db : forall b', due (set_done b' s) i = true) by (intros; exact D).
  unfold loop. rewrite !Db.
  destruct b; cbn; repeat split.
Qed.

Lemma done_never_gates_witness :
  due setup (mkTickIn 50 200 50) = true /\
  sketch_loop (set_done true setup) (mkTickIn 50 200 50) =
  sketch_loop (set_done false setup) (mkTickIn 50 200 50) /\
  done (sketch_loop (set_done true setup) (mkTickIn 50 200 50)) = false.
Proof.
  split; [reflexivity |].
  pose proof (done_never_gates PID.t PID.Compute setup
                               (mkTickIn 50 200 50) true eq_refl) as H.
  cbv zeta in H. destruct H as (H1 & H2 & _).
  split; [exact H1 | exact H2].
Defined.

(** A tick that does not run leaves the flag as it was. *)
Lemma done_kept_when_not_due
      {pid : Type} (Compute : pid -> Z -> Q -> Q -> Q -> pid * Q)
      (s : State pid) (i : TickIn) :
  due s i = false -> done (loop Compute s i) = done s.
Proof. intros H. now rewrite (loop_not_due Compute s i H). Qed.

(** ** C5: the range mapping *)

Lemma map_at_or_above (x in_min in_max out_min out_max : Z) :
  in_min < in_max -> in_max <= x ->
  Arduino.map x in_min in_max out_min out_max =
  out_max + Z.quot ((x - in_max) * (out_max - out_min)) (in_max - in_min).
Proof.
  intros Hd Hx. unfold Arduino.map.
  replace ((x - in_min) * (out_max - out_min))
    with ((x - in_max) * (out_max - out_min)
          + (out_max - out_min) * (in_max - in_min)) by ring.
  rewrite Z.quot_add; [lia | lia |].
  replace (((x - in_max) * (out_max - out_min)
            + (out_max - out_min) * (in_max - in_min))
           * ((x - in_max) * (out_max - out_min)))
    with ((out_max - out_min) * (out_max - out_min)
          * ((x - in_max) * (x - in_max + (in_max - in_min)))) by ring.
  apply Z.mul_nonneg_nonneg; [apply Z.square_nonneg | nia].
Qed.

Lemma map_at_or_below (x in_min in_max out_min out_max : Z) :
  in_min < in_max -> x <= in_min ->
  Arduino.map x in_min in_max out_min out_max =
  out_min - Z.quot ((in_min - x) * (out_max - out_min)) (in_max - in_min).
Proof.
  intros Hd Hx. unfold Arduino.map.
  replace ((x - in_min) * (out_max - out_min))
    with (- ((in_min - x) * (out_max - out_min))) by ring.
  rewrite Z.quot_opp_l by lia. lia.
Qed.

(** C5.  [map(x, 0, 400, -200, 200)] is -200 at 0, 0 at 200 and 200 at 400,
    and [x - 200] for every [x], inside the range or not.  For any ranges
    with [fromMin < fromMax] the end points are mapped to the end points,
    and an input beyond an end point is mapped beyond the corresponding
    target end point by its excess scaled with
    [(toMax - toMin) / (fromMax - fromMin)] (integer quotient): it is
    neither refused nor clamped. *)
Theorem map_linear_unclamped :
  forall x fromMin fromMax toMin toMax : Z,
    fromMin < fromMax ->
    (Arduino.map 0 0 400 (-200) 200 = -200 /\
     Arduino.map 200 0 400 (-200) 200 = 0 /\
     Arduino.map 400 0 400 (-200) 200 = 200) /\
    Arduino.map x 0 400 (-200) 200 = x - 200 /\
    Arduino.map fromMin fromMin fromMax toMin toMax = toMin /\
    Arduino.map fromMax fromMin fromMax toMin toMax = toMax /\
    (fromMax <= x ->
     Arduino.map x fromMin fromMax toMin toMax =
     toMax + Z.quot ((x - fromMax) * (toMax - toMin)) (fromMax - fromMin)) /\
    (x <= fromMin ->
     Arduino.map x fromMin fromMax toMin toMax =
     toMin - Z.quot ((fromMin - x) * (toMax - toMin)) (fromMax - fromMin)).
Proof.
  intros x a b c d H.
  split; [repeat split |].
  split.
  { unfold Arduino.map.
    replace ((x - 0) * (200 - -200)) with (x * 400) by ring.
    replace (400 - 0) with 400 by reflexivity.
    rewrite Z.quot_mul by discriminate. ring. }
  split.
  { rewrite map_at_or_below by lia.
    replace ((a - a) * (d - c)) with 0 by ring.
    rewrite Z.quot_0_l by lia. ring. }
  split.
  { rewrite map_at_or_above by lia.
    replace ((b - b) * (d - c)) with 0 by ring.
    rewrite Z.quot_0_l by lia. ring. }
  split; intros Hx.
  - now apply map_at_or_above.
  - now apply map_at_or_below.
Qed.

(** The command range of the sketch, at 2500 and at 500 microseconds. *)
Lemma map_linear_unclamped_witness :
  pwmMin < pwmMax /\
  Arduino.map 2500 pwmMin pwmMax outputMin outputMax = 400 /\
  Arduino.map 500 0 400 (-200) 200 = 300 /\
  Arduino.map (-100) 0 400 (-200) 200 = -300 /\
  Arduino.map 500 pwmMin pwmMax outputMin outputMax = -400.
Proof.
  split; [reflexivity |].
  destruct (map_linear_unclamped 2500 pwmMin pwmMax outputMin outputMax
                                 eq_refl) as (_ & _ & _ & _ & Hup & _).
  destruct (map_linear_unclamped 500 pwmMin pwmMax outputMin outputMax
                                 eq_refl) as (_ & Hpot & _ & _ & _ & Hdown).
  destruct (map_linear_unclamped (-100) pwmMin pwmMax outputMin outputMax
                                 eq_refl) as (_ & Hneg & _).
  split; [| split; [| split]].
  - rewrite Hup; [reflexivity | unfold pwmMax; lia].
  - exact Hpot.
  - exact Hneg.
  - rewrite Hdown; [reflexivity | unfold pwmMin; lia].
Defined.

(** ** C2: the controller's output bound *)

Lemma clamp_bounds (lo hi x : Q) :
  (lo <= hi)%Q -> (lo <= PID.clamp lo hi x <= hi)%Q.
Proof.
  intros H. unfold PID.clamp.
  destruct (Qlt_le_dec hi x) as [H1 | H1].
  - split; [exact H | apply Qle_refl].
  - destruct (Qlt_le_dec x lo) as [H2 | H2].
    + split; [apply Qle_refl | exact H].
    + split; assumption.
Qed.

(** A call of [Compute] keeps the bounds of the controller, leaves the
    integral accumulator within them when it computes, and returns a value
    within them if the output variable held one. *)
Lemma Compute_bounds (c : PID.t) (now : Z) (setpoint input output : Q) :
  (PID.outMin c <= PID.outMax c)%Q ->
  (PID.outMin c <= output <= PID.outMax c)%Q ->
  let r := PID.Compute c now setpoint input output in
  PID.outMin (fst r) = PID.outMin c /\
  PID.outMax (fst r) = PID.outMax c /\
  (PID.outMin c <= snd r <= PID.outMax c)%Q.
Proof.
  intros Hb Ho. cbv zeta. unfold PID.Compute.
  destruct (PID.SampleTime c <=? wrap32 (now - PID.lastComputeTime c)).
  - cbn [fst snd PID.outMin PID.outMax]. repeat split; trivial;
      now apply clamp_bounds.
  - cbn [fst snd]. repeat split; trivial; apply Ho.
Qed.

Lemma Compute_integral_bounded (c : PID.t) (now : Z) (setpoint input output : Q) :
  (PID.outMin c <= PID.outMax c)%Q ->
  (PID.outMin c <= PID.integralAccumulator c <= PID.outMax c)%Q ->
  let c' := fst (PID.Compute c now setpoint input output) in
  (PID.outMin c <= PID.integralAccumulator c' <= PID.outMax c)%Q.
Proof.
  intros Hb Hi. cbv zeta. unfold PID.Compute.
  destruct (PID.SampleTime c <=? wrap32 (now - PID.lastComputeTime c)).
  - cbn [fst PID.integralAccumulator]. now apply clamp_bounds.
  - exact Hi.
Qed.

(** C2.  For every sequence of times, setpoints and measurements, every
    output of the controller lies in [[outMin, outMax]], provided the
    bounds are ordered and the output variable starts within them. *)
Theorem pid_output_within_bounds :
  forall (c : PID.t) (output : Q) (inputs : list (Z * Q * Q)),
    (PID.outMin c <= PID.outMax c)%Q ->
    (PID.outMin c <= output <= PID.outMax c)%Q ->
    Forall (fun o => (PID.outMin c <= o <= PID.outMax c)%Q)
           (PID.run c output inputs).
Proof.
  intros c output inputs. revert c output.
  induction inputs as [| [[now setpoint] input] rest IH];
    intros c output Hb Ho; cbn [PID.run]; [constructor |].
  destruct (Compute_bounds c now setpoint input output Hb Ho)
    as (Emin & Emax & Hout).
  destruct (PID.Compute c now setpoint input output) as [c' out].
  cbn [fst snd] in *. constructor; [exact Hout |].
  rewrite <- Emin, <- Emax. apply IH; rewrite Emin, Emax; assumption.
Qed.

Lemma pid_output_within_bounds_witness :
  Forall (fun o => (-200 <= o <= 200)%Q)
         (PID.run PID1_setup 0 (windup_scenario 1000)).
Proof.
  apply (pid_output_within_bounds PID1_setup 0 (windup_scenario 1000)).
  - unfold Qle. simpl. lia.
  - split; unfold Qle; simpl; lia.
Defined.

(** On that scenario the output sits at the upper bound for the 1000 ticks
    and is at the lower bound on the tick after the reversal. *)
Lemma windup_scenario_outputs :
  List.map Qred (PID.run PID1_setup 0 (windup_scenario 1000)) =
  repeat 200%Q 1000 ++ [(-200)%Q].
Proof. vm_compute. reflexivity. Qed.

(** *** The bound in the sketch *)

Lemma apply_deadband_bounds (lo hi o : Q) :
  (lo <= 0)%Q -> (0 <= hi)%Q -> (lo <= o <= hi)%Q ->
  (lo <= apply_deadband o <= hi)%Q.
Proof.
  intros Hlo Hhi Ho.
  destruct (apply_deadband_cases o) as [E | [E _]]; rewrite E; auto.
Qed.

Lemma step_Output1_bounded (s : State PID.t) (e : Event) :
  Output1_bounded s -> Output1_bounded (step PID.Compute s e).
Proof.
  intros (Emin & Emax & Ho). destruct e as [level micros | i]; cbn [step].
  - unfold timeit.
    destruct level; (split; [exact Emin |]; split; [exact Emax | exact Ho]).
  - destruct (due s i) eqn:D.
    + assert (Hb : (PID.outMin (PID1 s) <= PID.outMax (PID1 s))%Q).
      { rewrite Emin, Emax. unfold Qle. simpl. lia. }
      assert (Ho' : (PID.outMin (PID1 s) <= Output1 s <= PID.outMax (PID1 s))%Q).
      { rewrite Emin, Emax. exact Ho. }
      pose proof (Compute_bounds (PID1 s) (t_pid i) (tick_Setpoint1 s)
                                 (tick_Input1 i) (Output1 s) Hb Ho')
        as (Fmin & Fmax & Hout).
      cbv zeta in Fmin, Fmax, Hout. rewrite Emin, Emax in Hout.
      unfold Output1_bounded, loop. rewrite D. cbn [PID1 Output1].
      change (PID.Compute (PID1 s) (t_pid i) _ _ (Output1 s))
        with (PID.Compute (PID1 s) (t_pid i) (tick_Setpoint1 s)
                          (tick_Input1 i) (Output1 s)).
      rewrite Fmin, Fmax. split; [exact Emin |]. split; [exact Emax |].
      apply apply_deadband_bounds; trivial; unfold Qle; simpl; lia.
    + rewrite (loop_not_due PID.Compute s i D).
      split; [exact Emin |]. split; [exact Emax | exact Ho].
Qed.

(** In every run of the sketch from its start state, [Output1] is within
    [[outputMin, outputMax]]. *)
Lemma sketch_Output1_within_bounds (es : list Event) :
  let s := sketch_run setup es in
  (inject_Z outputMin <= Output1 s <= inject_Z outputMax)%Q.
Proof.
  cbv zeta. unfold sketch_run, run.
  assert (G : forall s, Output1_bounded s ->
                        Output1_bounded (fold_left (step PID.Compute) es s)).
  { induction es as [| e es IH]; intros s Hs; [exact Hs |].
    cbn [fold_left]. apply IH. now apply step_Output1_bounded. }
  apply G. split; [reflexivity |]. split; [reflexivity |].
  split; unfold Qle; simpl; lia.
Qed.

(** * Further properties of the sketch *)

(** ** The timer prescaler set in [setup] *)

(** X1.  Whatever the register held, line 55 leaves its three low bits
    (the clock select) at 001 and its five high bits as they were; doing it
    twice is doing it once. *)
Theorem setup_prescaler_bits :
  forall r : Z,
    Z.land (setup_TCCR1B r) 7 = 1 /\
    Z.land (setup_TCCR1B r) 248 = Z.land r 248 /\
    setup_TCCR1B (setup_TCCR1B r) = setup_TCCR1B r.
Proof.
  intros r. unfold setup_TCCR1B.
  assert (A : Z.land (Z.lor (Z.land r 248) 1) 7 = 1).
  { rewrite Z.land_lor_distr_l, <- Z.land_assoc.
    change (Z.land 248 7) with 0. change (Z.land 1 7) with 1.
    now rewrite Z.land_0_r. }
  assert (B : Z.land (Z.lor (Z.land r 248) 1) 248 = Z.land r 248).
  { rewrite Z.land_lor_distr_l, <- Z.land_assoc.
    change (Z.land 248 248) with 248. change (Z.land 1 248) with 0.
    now rewrite Z.lor_0_r. }
  split; [exact A |]. split; [exact B |].
  now rewrite B.
Qed.

(** ** Pulse capture *)

Section Capture.

Context {pid : Type} (Compute : pid -> Z -> Q -> Q -> Q -> pid * Q).

Lemma run_app (s : State pid) (es1 es2 : list Event) :
  run Compute s (es1 ++ es2) = run Compute (run Compute s es1) es2.
Proof. unfold run. apply fold_left_app. Qed.

(** [loop] writes neither [start] nor [pwm]. *)
Lemma loop_keeps_capture (s : State pid) (i : TickIn) :
  start (loop Compute s i) = start s /\ pwm (loop Compute s i) = pwm s.
Proof. unfold loop. destruct (due s i); split; reflexivity. Qed.

Lemma ticks_keep_capture (es : list Event) :
  forall s : State pid,
    forallb is_tick es = true ->
    start (run Compute s es) = start s /\ pwm (run Compute s es) = pwm s.
Proof.
  induction es as [| e es IH]; intros s H; [split; reflexivity |].
  cbn [forallb] in H. apply andb_true_iff in H. destruct H as [He Hes].
  destruct e as [level micros | i]; [discriminate |].
  unfold run in *. cbn [fold_left step].
  destruct (IH (loop Compute s i) Hes) as [A B].
  destruct (loop_keeps_capture s i) as [C D].
  split; congruence.
Qed.

End Capture.

(** X2.  A rising edge at [t0] followed, after any number of passes of
    [loop], by a falling edge [w] microseconds later publishes exactly [w]
    and sets the flag, also when [micros()] overflowed in between (the
    falling edge is read as [(t0 + w) mod 2^32]). *)
Theorem pulse_width_measured :
  forall (pid : Type) (Compute : pid -> Z -> Q -> Q -> Q -> pid * Q)
         (s : State pid) (mid : list Event) (t0 w : Z),
    forallb is_tick mid = true ->
    0 <= w < 2 ^ 32 ->
    let s' :=
      run Compute s (Edge true t0 :: mid ++ [Edge false (wrap32 (t0 + w))]) in
    pwm s' = w /\ done s' = true.
Proof.
  intros pid Compute s mid t0 w Hmid Hw. cbv zeta.
  change (Edge true t0 :: mid ++ [Edge false (wrap32 (t0 + w))])
    with ([Edge true t0] ++ mid ++ [Edge false (wrap32 (t0 + w))]).
  rewrite !run_app.
  destruct (ticks_keep_capture Compute mid (run Compute s [Edge true t0]) Hmid)
    as [Hs _].
  set (s1 := run Compute (run Compute s [Edge true t0]) mid) in *.
  change (run Compute s1 [Edge false (wrap32 (t0 + w))])
    with (timeit s1 false (wrap32 (t0 + w))).
  unfold timeit. cbn [pwm done]. split; [| reflexivity].
  rewrite Hs. change (start (run Compute s [Edge true t0])) with t0.
  unfold wrap32. rewrite Zminus_mod_idemp_l.
  replace (t0 + w - t0) with w by ring.
  apply Z.mod_small. exact Hw.
Qed.

Lemma pulse_width_measured_witness :
  let s' :=
    sketch_run setup
      [Edge true 4294967000; Tick (mkTickIn 50 200 50);
       Edge false (wrap32 (4294967000 + 1500))] in
  pwm s' = 1500 /\ done s' = true.
Proof.
  apply (pulse_width_measured PID.t PID.Compute setup
           [Tick (mkTickIn 50 200 50)] 4294967000 1500).
  - reflexivity.
  - lia.
Defined.

(** ** Between ticks that run *)

Section Quiet.

Context {pid : Type} (Compute : pid -> Z -> Q -> Q -> Q -> pid * Q).

Lemma executed_cons_zero (s : State pid) (e : Event) (es : list Event) :
  executed Compute s (e :: es) = O ->
  executed Compute (step Compute s e) es = O /\
  match e with Tick i => due s i = false | Edge _ _ => True end.
Proof.
  cbn [executed]. destruct e as [level micros | i].
  - intros H. now split.
  - destruct (due s i); [discriminate | intros H; now split].
Qed.

Lemma step_quiet (s : State pid) (e : Event) :
  match e with Tick i => due s i = false | Edge _ _ => True end ->
  held_view (step Compute s e) = held_view s /\
  done (step Compute s e) = done s || is_capture e.
Proof.
  destruct e as [level micros | i]; cbn [step is_capture].
  - intros _. unfold timeit. destruct level; cbn.
    + now rewrite orb_false_r.
    + now rewrite orb_true_r.
  - intros D. rewrite (loop_not_due Compute s i D). cbn.
    now rewrite orb_false_r.
Qed.

End Quiet.

(** X3.  A run in which no pass of [loop] finds the period elapsed (early
    calls and interrupts only) leaves the filter variables, the setpoint,
    the measured input, the PID state and output, both channels, the sensor
    value, the time of the last tick and the log as they were. *)
Theorem quiet_run_holds_outputs :
  forall (pid : Type) (Compute : pid -> Z -> Q -> Q -> Q -> pid * Q)
         (es : list Event) (s : State pid),
    executed Compute s es = O ->
    held_view (run Compute s es) = held_view s.
Proof.
  intros pid Compute es.
  induction es as [| e es IH]; intros s H; [reflexivity |].
  destruct (executed_cons_zero Compute s e es H) as [H1 H2].
  unfold run in *. cbn [fold_left]. rewrite (IH _ H1).
  apply (step_quiet Compute s e H2).
Qed.

Lemma quiet_run_holds_outputs_witness :
  let s := sketch_run setup (pulse_then_tick 0 1600 50 0) in
  let es := [Tick (mkTickIn 60 300 60); Edge true 70000;
             Edge false 71200; Tick (mkTickIn 99 300 99)] in
  executed PID.Compute s es = O /\
  held_view (sketch_run s es) = held_view s.
Proof.
  split; [reflexivity |].
  apply (quiet_run_holds_outputs PID.t PID.Compute). reflexivity.
Defined.

(** X4.  In a run in which no pass of [loop] finds the period elapsed,
    the sample-ready flag ends set exactly when it was set before or the
    run holds a falling edge: only a tick that runs clears it. *)
Theorem done_held_until_tick_runs :
  forall (pid : Type) (Compute : pid -> Z -> Q -> Q -> Q -> pid * Q)
         (es : list Event) (s : State pid),
    executed Compute s es = O ->
    done (run Compute s es) = done s || existsb is_capture es.
Proof.
  intros pid Compute es.
  induction es as [| e es IH]; intros s H.
  - cbn. now rewrite orb_false_r.
  - destruct (executed_cons_zero Compute s e es H) as [H1 H2].
    unfold run in *. cbn [fold_left existsb]. rewrite (IH _ H1).
    destruct (step_quiet Compute s e H2) as [_ ->].
    now rewrite orb_assoc.
Qed.

Lemma done_held_until_tick_runs_witness :
  let es := [Edge true 0; Tick (mkTickIn 10 0 10); Edge false 1500;
             Tick (mkTickIn 49 0 49)] in
  executed PID.Compute setup es = O /\
  done (sketch_run setup es) = true.
Proof.
  split; [reflexivity |].
  exact (done_held_until_tick_runs PID.t PID.Compute
           [Edge true 0; Tick (mkTickIn 10 0 10); Edge false 1500;
            Tick (mkTickIn 49 0 49)] setup eq_refl).
Defined.

(** ** The tick schedule *)

(** X5.  After a pass of [loop] at time [t1], a pass at time [t2] runs
    exactly when at least [interval] milliseconds separate it, modulo 2^32,
    from [t1] if the first pass ran, and from the tick before it otherwise:
    the period is counted from the last tick that ran, a pass that came too
    early postpones nothing, and keeping the time in a signed [long] or an
    overflow of [millis()] does not disturb the schedule. *)
Theorem tick_schedule :
  forall (pid : Type) (Compute : pid -> Z -> Q -> Q -> Q -> pid * Q)
         (s : State pid) (i1 i2 : TickIn),
    due (loop Compute s i1) i2 =
    if due s i1
    then interval <=? wrap32 (t_loop i2 - t_loop i1)
    else due s i2.
Proof.
  intros pid Compute s i1 i2. unfold loop.
  destruct (due s i1); unfold due; cbn [previousMillis].
  - now rewrite wrap32_sub_to_long.
  - reflexivity.
Qed.

(** ** The log *)

(** X6.  A run appends to the log one line per tick that ran and nothing
    else; the lines printed before stay in place. *)
Theorem one_line_per_tick :
  forall (pid : Type) (Compute : pid -> Z -> Q -> Q -> Q -> pid * Q)
         (es : list Event) (s : State pid),
    exists lines : list LogLine,
      serial (run Compute s es) = serial s ++ lines /\
      length lines = executed Compute s es.
Proof.
  intros pid Compute es.
  induction es as [| e es IH]; intros s.
  - exists []. cbn. now rewrite app_nil_r.
  - destruct (IH (step Compute s e)) as (lines & E & L).
    unfold run in *. cbn [fold_left executed]. rewrite E.
    destruct e as [level micros | i]; cbn [step].
    + exists lines. split; [| exact L].
      unfold timeit. now destruct level.
    + unfold loop at 1. destruct (due s i) eqn:D; cbn [serial].
      * eexists (_ :: lines). rewrite <- app_assoc. cbn [app].
        split; [reflexivity |]. cbn [length]. now rewrite L.
      * exists lines. now split.
Qed.

(** ** The drive command outside the deadband *)

Lemma double_to_int_lower (k : Z) (q : Q) :
  (inject_Z k <= q)%Q -> k <= double_to_int q.
Proof.
  unfold Qle, double_to_int, double_to_long. cbn [Qnum Qden inject_Z].
  intros H. apply Z.quot_le_lower_bound; lia.
Qed.

Lemma double_to_int_upper (k : Z) (q : Q) :
  (q <= inject_Z k)%Q -> double_to_int q <= k.
Proof.
  unfold Qle, double_to_int, double_to_long. cbn [Qnum Qden inject_Z].
  intros H. apply Z.quot_le_upper_bound; lia.
Qed.

Lemma double_to_int_opp_opp (q : Q) :
  double_to_int (- - q) = double_to_int q.
Proof.
  destruct q as [n d]. unfold double_to_int, double_to_long. cbn.
  now rewrite Z.opp_involutive.
Qed.

Lemma drive_forward (o a : Q) (c : Channels) :
  (0 < o)%Q -> drive o a c = (a, mkChannels (double_to_int o) 0).
Proof.
  intros H. unfold drive, drive_branch.
  destruct (Qeq_bool o 0) eqn:E.
  - apply Qeq_bool_eq in E. rewrite E in H. discriminate.
  - destruct (Qlt_le_dec 0 o) as [_ | H']; [reflexivity |].
    exfalso. apply (Qlt_not_le _ _ H H').
Qed.

Lemma drive_reverse (o a : Q) (c : Channels) :
  (o < 0)%Q -> drive o a c = ((- o)%Q, mkChannels 0 (double_to_int (- o))).
Proof.
  intros H. unfold drive, drive_branch, Arduino.abs.
  destruct (Qeq_bool o 0) eqn:E.
  - apply Qeq_bool_eq in E. rewrite E in H. discriminate.
  - destruct (Qlt_le_dec 0 o) as [H' | _].
    + exfalso. apply (Qlt_irrefl 0). now apply Qlt_trans with o.
    + destruct (Qlt_le_dec o 0) as [_ | H'']; [reflexivity |].
      exfalso. apply (Qlt_not_le _ _ H H'').
Qed.

Lemma drive_stopped (a : Q) (c : Channels) :
  drive 0 a c = (a, mkChannels 0 0).
Proof. reflexivity. Qed.

(** A value outside the deadband is at least 5 or at most -5. *)
Lemma outside_deadband (o : Q) :
  (deadband <= Qabs o)%Q -> (5 <= o)%Q \/ (o <= -5)%Q.
Proof.
  unfold deadband. intros H.
  destruct (Qlt_le_dec o 0) as [Hn | Hp].
  - right. rewrite Qabs_neg in H by now apply Qlt_le_weak. lra.
  - left. now rewrite Qabs_pos in H.
Qed.

Lemma loop_due_Output1a
      {pid : Type} (Compute : pid -> Z -> Q -> Q -> Q -> pid * Q)
      (s : State pid) (i : TickIn) :
  due s i = true ->
  Output1a (loop Compute s i) =
  fst (drive (apply_deadband (snd (tick_compute Compute s i)))
             (Output1a s) (channels s)).
Proof. intros H. unfold loop. now rewrite H. Qed.

(** X7.  On a tick that runs with a controller output [o] outside the
    deadband, [Output1] is [o]; for [o >= 5] the forward channel gets [o]
    with its fraction dropped, at least 5, the reverse channel 0, and
    [Output1a] keeps its value; for [o <= -5] the reverse channel gets
    [-o] with its fraction dropped, at least 5, the forward channel 0, and
    [Output1a] becomes [-o]. *)
Theorem drive_magnitudes :
  forall (pid : Type) (Compute : pid -> Z -> Q -> Q -> Q -> pid * Q)
         (s : State pid) (i : TickIn),
    due s i = true ->
    (deadband <= Qabs (snd (tick_compute Compute s i)))%Q ->
    let o := snd (tick_compute Compute s i) in
    let s' := loop Compute s i in
    Output1 s' = o /\
    (((5 <= o)%Q /\
      channels s' = mkChannels (double_to_int o) 0 /\
      5 <= double_to_int o /\
      Output1a s' = Output1a s) \/
     ((o <= -5)%Q /\
      channels s' = mkChannels 0 (double_to_int (- o)) /\
      5 <= double_to_int (- o) /\
      Output1a s' = (- o)%Q)).
Proof.
  intros pid Compute s i D H. cbv zeta.
  rewrite (loop_due_Output1 Compute s i D), (loop_due_channels Compute s i D),
    (loop_due_Output1a Compute s i D).
  set (o := snd (tick_compute Compute s i)) in *.
  destruct (apply_deadband_cases o) as [E | [E _]].
  - exfalso. unfold apply_deadband in E.
    destruct (Qlt_le_dec (Arduino.abs o) deadband) as [L | L].
    + rewrite abs_is_Qabs in L. apply (Qlt_not_le _ _ L H).
    + rewrite E in H. revert H. unfold deadband, Qle. cbn. lia.
  - rewrite E. split; [reflexivity |].
    destruct (outside_deadband o H) as [P | N].
    + left. rewrite drive_forward by lra. cbn [fst snd].
      repeat split; trivial. now apply (double_to_int_lower 5).
    + right. rewrite drive_reverse by lra. cbn [fst snd].
      repeat split; trivial. apply (double_to_int_lower 5).
      change (inject_Z 5) with 5%Q. lra.
Qed.

Lemma drive_magnitudes_witness :
  (let s' := loop (constant_pid 120.75) stale_reverse (mkTickIn 50 200 50) in
   Output1 s' = 120.75%Q /\ channels s' = mkChannels 120 0 /\
   Output1a s' = 90%Q) /\
  (let s' := loop (constant_pid (-5)) stale_forward (mkTickIn 50 200 50) in
   Output1 s' = (-5)%Q /\ channels s' = mkChannels 0 5 /\
   Output1a s' = (- -5)%Q).
Proof.
  split.
  - assert (H : (deadband <= Qabs 120.75)%Q) by (unfold Qle; simpl; lia).
    destruct (drive_magnitudes unit (constant_pid 120.75) stale_reverse
                (mkTickIn 50 200 50) eq_refl H)
      as (A & [(_ & B & _ & C) | (N & _)]).
    + cbv zeta. split; [exact A | split; [exact B | exact C]].
    + exfalso. revert N. unfold Qle. simpl. lia.
  - assert (H : (deadband <= Qabs (-5))%Q) by (unfold Qle; simpl; lia).
    destruct (drive_magnitudes unit (constant_pid (-5)) stale_forward
                (mkTickIn 50 200 50) eq_refl H)
      as (A & [(P & _) | (_ & B & _ & C)]).
    + exfalso. revert P. unfold Qle. simpl. lia.
    + cbv zeta. split; [exact A | split; [exact B | exact C]].
Defined.

(** What a tick that runs leaves on the channels, by the controller
    output. *)
Lemma tick_channels_exact (o a : Q) (c : Channels) :
  snd (drive (apply_deadband o) a c) =
  if Qlt_le_dec (Qabs o) deadband then mkChannels 0 0
  else if Qlt_le_dec 0 o then mkChannels (double_to_int o) 0
       else mkChannels 0 (double_to_int (- o)).
Proof.
  destruct (Qlt_le_dec (Qabs o) deadband) as [L | L].
  - now rewrite (apply_deadband_inside o L).
  - destruct (apply_deadband_cases o) as [E | [E _]]; rewrite E.
    + unfold apply_deadband in E.
      destruct (Qlt_le_dec (Arduino.abs o) deadband) as [L' | L'].
      * rewrite abs_is_Qabs in L'. exfalso. apply (Qlt_not_le _ _ L' L).
      * exfalso. rewrite E in L. revert L. unfold deadband, Qle. cbn. lia.
    + destruct (outside_deadband o L) as [P | N].
      * rewrite drive_forward by lra.
        destruct (Qlt_le_dec 0 o); [reflexivity | lra].
      * rewrite drive_reverse by lra.
        destruct (Qlt_le_dec 0 o); [lra | reflexivity].
Qed.

(** X8.  When the controller output of a tick that runs is within
    [[outputMin, outputMax]], both duties written are between 0 and 200,
    inside the 0..255 range of [analogWrite]. *)
Theorem duty_within_range :
  forall (pid : Type) (Compute : pid -> Z -> Q -> Q -> Q -> pid * Q)
         (s : State pid) (i : TickIn),
    due s i = true ->
    (inject_Z outputMin <= snd (tick_compute Compute s i)
     <= inject_Z outputMax)%Q ->
    let c := channels (loop Compute s i) in
    0 <= duty1 c <= 200 /\ 0 <= duty2 c <= 200.
Proof.
  intros pid Compute s i D [Lo Hi]. cbv zeta.
  rewrite (loop_due_channels Compute s i D), tick_channels_exact.
  set (o := snd (tick_compute Compute s i)) in *.
  change (inject_Z outputMin) with (-200)%Q in Lo.
  change (inject_Z outputMax) with 200%Q in Hi.
  destruct (Qlt_le_dec (Qabs o) deadband) as [L | L]; [cbn; lia |].
  destruct (Qlt_le_dec 0 o) as [P | N]; cbn [duty1 duty2].
  - pose proof (double_to_int_lower 0 o) as A.
    pose proof (double_to_int_upper 200 o) as B.
    change (inject_Z 0) with 0%Q in A. change (inject_Z 200) with 200%Q in B.
    split; [split; [apply A; lra | apply B; lra] | lia].
  - pose proof (double_to_int_lower 0 (- o)) as A.
    pose proof (double_to_int_upper 200 (- o)) as B.
    change (inject_Z 0) with 0%Q in A. change (inject_Z 200) with 200%Q in B.
    split; [lia | split; [apply A; lra | apply B; lra]].
Qed.

Lemma duty_within_range_witness :
  let c := channels (sketch_loop setup (mkTickIn 50 1023 50)) in
  0 <= duty1 c <= 200 /\ 0 <= duty2 c <= 200.
Proof.
  apply (duty_within_range PID.t PID.Compute setup (mkTickIn 50 1023 50)).
  - reflexivity.
  - split; unfold Qle; simpl; lia.
Defined.

(** X9.  The drive is symmetric: on a tick that runs, a controller that
    answers the opposite output leaves the two channels exchanged. *)
Theorem drive_symmetric :
  forall (pid : Type) (Compute Compute' : pid -> Z -> Q -> Q -> Q -> pid * Q)
         (s : State pid) (i : TickIn),
    due s i = true ->
    snd (tick_compute Compute' s i) = (- snd (tick_compute Compute s i))%Q ->
    channels (loop Compute' s i) = swap_channels (channels (loop Compute s i)).
Proof.
  intros pid Compute Compute' s i D E.
  rewrite !(loop_due_channels _ s i D), !tick_channels_exact, E.
  set (o := snd (tick_compute Compute s i)).
  destruct (Qlt_le_dec (Qabs (- o)) deadband) as [L | L];
    destruct (Qlt_le_dec (Qabs o) deadband) as [L' | L'];
    try rewrite Qabs_opp in L;
    try (exfalso; apply (Qlt_not_le _ _ L L'));
    try (exfalso; apply (Qlt_not_le _ _ L' L)); [reflexivity |].
  destruct (outside_deadband o L') as [P | N].
  - destruct (Qlt_le_dec 0 (- o)); [lra |].
    destruct (Qlt_le_dec 0 o); [| lra].
    unfold swap_channels. cbn. now rewrite double_to_int_opp_opp.
  - destruct (Qlt_le_dec 0 (- o)); [| lra].
    destruct (Qlt_le_dec 0 o); [lra |].
    reflexivity.
Qed.

Lemma drive_symmetric_witness :
  channels (loop (constant_pid (-120.75)) stale_forward (mkTickIn 50 200 50))
  = swap_channels
      (channels (loop (constant_pid 120.75) stale_forward (mkTickIn 50 200 50))).
Proof.
  apply (drive_symmetric unit (constant_pid 120.75) (constant_pid (-120.75))
                         stale_forward (mkTickIn 50 200 50)).
  - reflexivity.
  - reflexivity.
Defined.

(** ** What [Output1] can hold *)

Lemma apply_deadband_zero_or_outside (o : Q) :
  apply_deadband o = 0%Q \/ (deadband <= Qabs (apply_deadband o))%Q.
Proof.
  destruct (apply_deadband_cases o) as [E | [E H]]; [now left |].
  right. now rewrite E.
Qed.

(** X10.  In every run from the start state, with any controller,
    [Output1] is exactly 0 or at least the deadband in magnitude: no value
    strictly inside the deadband other than 0 is ever left in it. *)
Theorem Output1_never_inside_deadband :
  forall (pid : Type) (Compute : pid -> Z -> Q -> Q -> Q -> pid * Q)
         (p : pid) (es : list Event),
    let s := run Compute (initial p) es in
    Output1 s = 0%Q \/ (deadband <= Qabs (Output1 s))%Q.
Proof.
  intros pid Compute p es. cbv zeta. unfold run.
  assert (G : forall s : State pid,
             (Output1 s = 0%Q \/ (deadband <= Qabs (Output1 s))%Q) ->
             let s' := fold_left (step Compute) es s in
             Output1 s' = 0%Q \/ (deadband <= Qabs (Output1 s'))%Q).
  { induction es as [| e es IH]; intros s Hs; [exact Hs |].
    cbn [fold_left]. apply IH.
    destruct e as [level micros | i]; cbn [step].
    - unfold timeit. now destruct level.
    - destruct (due s i) eqn:D.
      + rewrite (loop_due_Output1 Compute s i D).
        apply apply_deadband_zero_or_outside.
      + now rewrite (loop_not_due Compute s i D). }
  apply G. now left.
Qed.

(** X11.  The deadband and drive logic is idempotent: when, on a tick that
    runs right after another, the controller hands back the output variable
    as it found it, the tick leaves [Output1], [Output1a] and both channels
    as the tick before left them. *)
Theorem unchanged_output_reemitted :
  forall (pid : Type) (Compute : pid -> Z -> Q -> Q -> Q -> pid * Q)
         (s : State pid) (i1 i2 : TickIn),
    due s i1 = true ->
    due (loop Compute s i1) i2 = true ->
    snd (tick_compute Compute (loop Compute s i1) i2)
    = Output1 (loop Compute s i1) ->
    let s1 := loop Compute s i1 in
    let s2 := loop Compute s1 i2 in
    Output1 s2 = Output1 s1 /\
    Output1a s2 = Output1a s1 /\
    channels s2 = channels s1.
Proof.
  intros pid Compute s i1 i2 D1 D2 E. cbv zeta.
  pose proof (loop_due_Output1 Compute s i1 D1) as H1.
  pose proof (loop_due_Output1a Compute s i1 D1) as H2.
  pose proof (loop_due_channels Compute s i1 D1) as H3.
  set (s1 := loop Compute s i1) in *.
  rewrite (loop_due_Output1 Compute s1 i2 D2),
    (loop_due_Output1a Compute s1 i2 D2),
    (loop_due_channels Compute s1 i2 D2), E, H1, H2, H3.
  set (o := snd (tick_compute Compute s i1)).
  destruct (apply_deadband_cases o) as [Z | [Z H]]; rewrite !Z.
  - change (apply_deadband 0) with 0%Q. rewrite !drive_stopped.
    repeat split.
  - destruct (outside_deadband o H) as [P | N].
    + rewrite !drive_forward by lra. repeat split.
    + rewrite !drive_reverse by lra. repeat split.
Qed.

Lemma unchanged_output_reemitted_witness :
  let s1 := sketch_loop setup (mkTickIn 50 0 50) in
  let s2 := sketch_loop s1 (mkTickIn 100 0 99) in
  channels s1 = mkChannels 0 200 /\
  Output1 s2 = Output1 s1 /\
  Output1a s2 = Output1a s1 /\
  channels s2 = channels s1.
Proof.
  split; [reflexivity |].
  apply (unchanged_output_reemitted PID.t PID.Compute setup
           (mkTickIn 50 0 50) (mkTickIn 100 0 99)).
  - reflexivity.
  - reflexivity.
  - reflexivity.
Defined.

(** ** The filters *)

(** X12.  With the sketch's smoothing factor 0.5 and both arguments
    representable between 1 and [2^prec], the low-pass output, rounding
    included, lies between the previous filtered value and the new sample:
    the filter never overshoots either. *)
Theorem lowPassFilter_between :
  forall (prec emin : Z) (newPWM filteredPWM : Q),
    1 <= prec ->
    emin + prec <= 0 ->
    in_float_range prec emin newPWM ->
    in_float_range prec emin filteredPWM ->
    (Qmin newPWM filteredPWM
     <= lowPassFilter_rounded prec emin newPWM filteredPWM alphaLowPass
     <= Qmax newPWM filteredPWM)%Q.
Proof.
  intros prec emin r f Hprec Hemin Ir If.
  destruct (filter_step_rounded prec emin Hprec Hemin r f Ir If)
    as (_ & B & _).
  now rewrite Q.min_comm, Q.max_comm.
Qed.

Lemma lowPassFilter_between_witness :
  (Qmin 1600 (3201 # 2)
   <= lowPassFilter_rounded 24 (-149) 1600 (3201 # 2) alphaLowPass
   <= Qmax 1600 (3201 # 2))%Q.
Proof.
  apply (lowPassFilter_between 24 (-149) 1600 (3201 # 2)).
  - lia.
  - lia.
  - split; [vm_compute; reflexivity | split; unfold Qle; simpl; lia].
  - split; [vm_compute; reflexivity | split; unfold Qle; simpl; lia].
Defined.

(** With another factor the rounded output can leave that interval by one
    unit in the last place: 0.1 in the 64-bit format on 1999 and 1999, and
    in the 32-bit format on 1001 and 1001. *)
Lemma lowPassFilter_other_factor_overshoots :
  (Qmax 1999 1999
   < lowPassFilter_rounded 53 (-1074) 1999 1999
                           (Float.round 53 (-1074) 0.1))%Q /\
  (lowPassFilter_rounded 24 (-149) 1001 1001 (Float.round 24 (-149) 0.1)
   < Qmin 1001 1001)%Q.
Proof. split; vm_compute; reflexivity. Qed.

Lemma map_command_range (x : Z) :
  pwmMin <= x <= pwmMax ->
  outputMin <= Arduino.map x pwmMin pwmMax outputMin outputMax <= outputMax.
Proof.
  unfold Arduino.map, pwmMin, pwmMax, outputMin, outputMax. intros H.
  assert (0 <= Z.quot ((x - 1000) * (200 - -200)) (2000 - 1000) <= 400);
    [| lia].
  split.
  - apply Z.quot_le_lower_bound; lia.
  - apply Z.quot_le_upper_bound; lia.
Qed.

(** X13.  A tick that runs with the captured width and the filtered value
    both within [[pwmMin, pwmMax]] leaves the filtered value within that
    range and the setpoint within [[outputMin, outputMax]]. *)
Theorem command_in_range_kept :
  forall (pid : Type) (Compute : pid -> Z -> Q -> Q -> Q -> pid * Q)
         (s : State pid) (i : TickIn),
    due s i = true ->
    pwmMin <= pwm s <= pwmMax ->
    (inject_Z pwmMin <= filteredPWM s <= inject_Z pwmMax)%Q ->
    let s' := loop Compute s i in
    (inject_Z pwmMin <= filteredPWM s' <= inject_Z pwmMax)%Q /\
    (inject_Z outputMin <= Setpoint1 s' <= inject_Z outputMax)%Q.
Proof.
  intros pid Compute s i D [P1 P2] [F1 F2]. cbv zeta.
  unfold loop. rewrite D. cbn [filteredPWM Setpoint1].
  set (f := lowPassFilter (long_to_double (pwm s)) (filteredPWM s)
                          alphaLowPass).
  assert (R : (inject_Z pwmMin <= f <= inject_Z pwmMax)%Q).
  { unfold f, lowPassFilter, long_to_double, alphaLowPass.
    assert (A : (inject_Z pwmMin <= inject_Z (pwm s))%Q)
      by (rewrite <- Zle_Qle; exact P1).
    assert (B : (inject_Z (pwm s) <= inject_Z pwmMax)%Q)
      by (rewrite <- Zle_Qle; exact P2).
    split; lra. }
  split; [exact R |].
  unfold long_to_double. rewrite <- !Zle_Qle.
  apply map_command_range. destruct R as [R1 R2]. split.
  - now apply double_to_int_lower.
  - now apply double_to_int_upper.
Qed.

Lemma command_in_range_kept_witness :
  let s := sketch_run setup [Edge true 0; Edge false 1900] in
  let s' := sketch_loop s (mkTickIn 50 200 50) in
  (inject_Z pwmMin <= filteredPWM s' <= inject_Z pwmMax)%Q /\
  (inject_Z outputMin <= Setpoint1 s' <= inject_Z outputMax)%Q.
Proof.
  apply (command_in_range_kept PID.t PID.Compute
           (sketch_run setup [Edge true 0; Edge false 1900])
           (mkTickIn 50 200 50)).
  - reflexivity.
  - change (pwmMin <= 1900 <= pwmMax). unfold pwmMin, pwmMax. lia.
  - change (inject_Z pwmMin <= 1500 <= inject_Z pwmMax)%Q.
    split; unfold Qle; simpl; lia.
Defined.

(** ** No command signal since power-up *)

Lemma map_command_low (x : Z) :
  0 <= x <= 750 ->
  -600 <= Arduino.map x pwmMin pwmMax outputMin outputMax <= -300.
Proof.
  unfold Arduino.map, pwmMin, pwmMax, outputMin, outputMax. intros H.
  assert (-400 <= Z.quot ((x - 1000) * (200 - -200)) (2000 - 1000) <= -100);
    [| lia].
  split.
  - apply Z.quot_le_lower_bound; lia.
  - apply Z.quot_le_upper_bound; lia.
Qed.

Section NoSignal.

Context {pid : Type} (Compute : pid -> Z -> Q -> Q -> Q -> pid * Q).

Lemma step_no_signal (s : State pid) (e : Event) :
  no_capture e = true ->
  no_signal s ->
  no_signal (step Compute s e) /\
  (executed Compute s [e] = 1%nat -> no_signal_ticked (step Compute s e)) /\
  (no_signal_ticked s -> no_signal_ticked (step Compute s e)).
Proof.
  unfold no_signal, no_signal_ticked.
  destruct e as [level micros | i]; cbn [no_capture step executed].
  - intros -> (P & F1 & F2). unfold timeit.
    cbn [pwm filteredPWM Setpoint1].
    split; [auto |]. split; [discriminate | auto].
  - intros _ (P & F1 & F2). unfold loop.
    destruct (due s i); cbn [pwm filteredPWM Setpoint1].
    + set (f := lowPassFilter (long_to_double (pwm s)) (filteredPWM s)
                              alphaLowPass).
      assert (R : (0 <= f <= 750)%Q).
      { unfold f, lowPassFilter, long_to_double, alphaLowPass.
        rewrite P. change (inject_Z 0) with 0%Q. split; lra. }
      assert (S1 : (-600 <= long_to_double
                              (Arduino.map (double_to_long f) pwmMin pwmMax
                                           outputMin outputMax) <= -300)%Q).
      { unfold long_to_double.
        change (-600)%Q with (inject_Z (-600)).
        change (-300)%Q with (inject_Z (-300)).
        rewrite <- !Zle_Qle. apply map_command_low.
        destruct R as [R1 R2]. split.
        - now apply (double_to_int_lower 0).
        - now apply (double_to_int_upper 750). }
      destruct R as [R1 R2].
      assert (NS : pwm s = 0 /\ (0 <= f <= 1500)%Q)
        by (split; [exact P | split; lra]).
      split; [exact NS |].
      split; intros _; (split; [exact NS | split; [exact R2 | exact S1]]).
    + split; [auto |]. split; [discriminate | auto].
Qed.

Lemma run_no_signal (es : list Event) :
  forall s : State pid,
    forallb no_capture es = true ->
    no_signal s ->
    no_signal_ticked s \/ (1 <= executed Compute s es)%nat ->
    no_signal_ticked (run Compute s es).
Proof.
  induction es as [| e es IH]; intros s H J K.
  - destruct K as [K | K]; [exact K | cbn in K; lia].
  - cbn [forallb] in H. apply andb_true_iff in H. destruct H as [He Hes].
    destruct (step_no_signal s e He J) as (J' & T1 & T2).
    unfold run in *. cbn [fold_left]. apply IH; trivial.
    destruct K as [K | K]; [left; auto |].
    cbn [executed] in K, T1.
    destruct e as [level micros | i]; [right; exact K |].
    destruct (due s i); [left; auto | right; exact K].
Qed.

End NoSignal.

(** X15.  With no pulse captured since the start, [pwm] is 0; after the
    first tick that runs the filtered width is at most 750 and, for as long
    as no pulse arrives, the setpoint stays between -600 and -300, below
    [outputMin]. *)
Theorem no_signal_since_start :
  forall (pid : Type) (Compute : pid -> Z -> Q -> Q -> Q -> pid * Q)
         (p : pid) (es : list Event),
    forallb no_capture es = true ->
    (1 <= executed Compute (initial p) es)%nat ->
    let s := run Compute (initial p) es in
    pwm s = 0 /\
    (0 <= filteredPWM s <= 750)%Q /\
    (-600 <= Setpoint1 s <= -300)%Q /\
    (Setpoint1 s < inject_Z outputMin)%Q.
Proof.
  intros pid Compute p es H N. cbv zeta.
  assert (J : no_signal (initial p)).
  { unfold no_signal. cbn [initial pwm filteredPWM].
    split; [reflexivity | split; unfold Qle; cbn; lia]. }
  destruct (run_no_signal Compute es (initial p) H J (or_intror N))
    as ((P & F1 & _) & F3 & S1 & S2).
  split; [exact P |]. split; [split; [exact F1 | exact F3] |].
  split; [split; [exact S1 | exact S2] |].
  change (inject_Z outputMin) with (-200)%Q. lra.
Qed.

Lemma no_signal_since_start_witness :
  let s := sketch_run setup stale_run in
  pwm s = 0 /\
  (0 <= filteredPWM s <= 750)%Q /\
  (-600 <= Setpoint1 s <= -300)%Q /\
  (Setpoint1 s < inject_Z outputMin)%Q.
Proof.
  apply (no_signal_since_start PID.t PID.Compute PID1_setup stale_run).
  - reflexivity.
  - change (1 <= 3)%nat. lia.
Defined.
